(** * oximachine_featurizer: [mine_mof_oxstate/featurize.py]

    A shallow embedding of the [GetFeatures] class and a verification of
    its orchestration logic: output naming, loading, metal-site selection,
    the per-site loop with its [try]/[except], and serialization.

    Conventions of the embedding.
    - The instance ([self]) and the outside world (file system, log) are
      threaded explicitly through a small state-and-exception monad [M];
      a raised exception keeps every mutation made before it, as a
      mutated Python object does.
    - The third-party calls ([ase.io.read], [AseAtomsAdaptor.get_structure],
      matminer's [featurize], [open], [pickle.dump]) are the fields of
      an environment [Env]; each either returns or raises an [Exception].
      What is not an [Exception] ([KeyboardInterrupt], [SystemExit]) and
      calls that never return are outside the model.
    - Paths are POSIX paths ([posixpath.join], [PurePosixPath.stem]).
    - Float arrays are only moved around by this code, never computed
      with; they are modelled as lists of rationals. *)

From Stdlib Require Import QArith Ascii String Sorted.
From stdpp Require Import gmap strings list fin_maps.

Local Open Scope string_scope.
Local Open Scope list_scope.

(** ** POSIX path helpers ([os.path.join], [pathlib.Path(...).stem]) *)
Module PosixPath.

Definition sep : ascii := "/"%char.
Definition dot : ascii := "."%char.

(** [s.startswith('/')] *)
Definition startswith_sep (s : string) : bool :=
  match s with
  | String c _ => Ascii.eqb c sep
  | EmptyString => false
  end.

(** [s.endswith('/')] *)
Fixpoint endswith_sep (s : string) : bool :=
  match s with
  | EmptyString => false
  | String c EmptyString => Ascii.eqb c sep
  | String _ r => endswith_sep r
  end.

(** [posixpath.join(a, b)]: an absolute [b] replaces [a]; otherwise the two
    are glued with exactly one separator unless [a] is empty or already
    ends with one. *)
Definition join (a b : string) : string :=
  if startswith_sep b then b
  else if (String.eqb a "" || endswith_sep a)%bool then a +:+ b
  else a +:+ "/" +:+ b.

(** [s.split(c)] *)
Fixpoint split (c : ascii) (s : string) : list string :=
  match s with
  | EmptyString => [EmptyString]
  | String a r =>
      if Ascii.eqb a c then EmptyString :: split c r
      else match split c r with
           | h :: t => String a h :: t
           | [] => [String a EmptyString]
           end
  end.

(** A component survives pathlib's parsing when it is neither empty nor
    the single dot. *)
Definition kept (part : string) : bool :=
  negb (String.eqb part "" || String.eqb part ".")%bool.

(** The relative components of [PurePosixPath(s).parts] (the root, when
    there is one, is not a component). *)
Definition components (s : string) : list string :=
  List.filter kept (split sep s).

(** [PurePosixPath(s).name]: the last component, or [''] when there is none. *)
Definition name (s : string) : string := List.last (components s) "".

(** [s.rfind(c)], with [None] for Python's [-1]. *)
Fixpoint rfind (c : ascii) (s : string) : option nat :=
  match s with
  | EmptyString => None
  | String a r =>
      match rfind c r with
      | Some i => Some (S i)
      | None => if Ascii.eqb a c then Some 0 else None
      end
  end.

(** [PurePosixPath(s).stem]:
    [i = name.rfind('.'); name[:i] if 0 < i < len(name) - 1 else name]. *)
Definition stem_of_name (nm : string) : string :=
  match rfind dot nm with
  | Some i =>
      if ((0 <? i) && (i <? String.length nm - 1))%bool%nat
      then substring 0 i nm
      else nm
  | None => nm
  end.

Definition stem (s : string) : string := stem_of_name (name s).

(** Does the character occur in the string. *)
Fixpoint occurs (c : ascii) (s : string) : bool :=
  match s with
  | EmptyString => false
  | String a r => (Ascii.eqb a c || occurs c r)%bool
  end.

End PosixPath.

(** ** The pymatgen data the class reads *)
Module Pymatgen.

(** A vector of floats (a numpy array in the source). *)
Definition vector : Type := list Q.

(** A member of [species.elements]. It is an [Element], whose [is_metal]
    property is a boolean, or a [DummySpecies], which is what pymatgen
    builds for a symbol that names no element (the placeholder atom [X]
    of an ASE structure) and which has no [is_metal] attribute. *)
Inductive Element : Type :=
| mkElement (symbol : string) (metal : bool)
| mkDummySpecies (symbol : string).

(** [e.is_metal]; [None]: the attribute lookup raises [AttributeError]. *)
Definition is_metal (e : Element) : option bool :=
  match e with
  | mkElement _ metal => Some metal
  | mkDummySpecies _ => None
  end.

(** [Composition]: [species.elements] is a Python list. *)
Record Composition : Type := mkComposition {
  elements : list Element
}.

(** [Site]: [site.species], [site.species_string], [site.coords]. *)
Record Site : Type := mkSite {
  species : Composition;
  species_string : string;
  coords : vector
}.

(** A [Structure] iterates over its sites in order. *)
Definition Structure : Type := list Site.

End Pymatgen.
Import Pymatgen.

(** ** Exceptions, the world, the instance *)

(** Every constructor stands for a subclass of Python's [Exception], so
    [except Exception] catches each of them. *)
Inductive exn : Type :=
| IndexError
| AttributeError
| TypeError
| OSError
| PicklingError
| ReadError
| AdaptorError
| FeaturizerError.

Inductive result (A : Type) : Type :=
| Return (a : A)
| Raise (e : exn).
Arguments Return {A} a.
Arguments Raise {A} e.

(** [self.features]: [defaultdict(dict)], label -> {'feature': .., 'coords': ..}. *)
Abbreviation FeatureRecord := (gmap string (gmap string vector)).

(** What a file holds after this program touched it. [Pickled d]: a
    complete pickle of [d]. [Truncated]: the file was opened with ['wb'],
    so what it held before is gone, and it holds no complete pickle: it
    is empty, or holds the part that a [pickle.dump] wrote before it
    raised. *)
Inductive FileContent : Type :=
| Truncated
| Pickled (d : FeatureRecord).

Record LogRecord : Type := mkLogRecord {
  levelname : string;
  message : string
}.

Record World : Type := mkWorld {
  fs : gmap string FileContent;
  log : list LogRecord
}.

(** The attributes of a [GetFeatures] instance (the logger is the [log]
    of the world). *)
Record GetFeatures : Type := mkGetFeatures {
  outpath : string;
  path : string;
  structure : option Structure;
  metal_sites : list Site;
  metal_indices : list nat;
  features : FeatureRecord;
  outname : string
}.

(** The third-party calls. [None] means the call raised an [Exception]. *)
Record Env : Type := mkEnv {
  Atoms : Type;
  (** [ase.io.read(path)] *)
  read : string -> option Atoms;
  (** [AseAtomsAdaptor.get_structure(atoms)] *)
  get_structure : Atoms -> option Structure;
  (** [MultipleFeaturizer([...]).featurize(structure, idx)] *)
  featurize : Structure -> nat -> option vector;
  (** does [open(name, 'wb')] succeed *)
  open_wb : string -> bool;
  (** does [pickle.dump(d, filehandle)] succeed *)
  pickle_dump : FeatureRecord -> bool
}.

(** ** The monad: instance and world in, outcome with instance and world out *)
Definition M (A : Type) : Type :=
  GetFeatures -> World -> result A * GetFeatures * World.

Definition ret {A} (a : A) : M A := fun self w => (Return a, self, w).

Definition bind {A B} (m : M A) (k : A -> M B) : M B :=
  fun self w =>
    match m self w with
    | (Return a, self', w') => k a self' w'
    | (Raise e, self', w') => (Raise e, self', w')
    end.

Definition raise {A} (e : exn) : M A := fun self w => (Raise e, self, w).

(** [try: body  except Exception: handler] *)
Definition try_except {A} (body : M A) (handler : exn -> M A) : M A :=
  fun self w =>
    match body self w with
    | (Return a, self', w') => (Return a, self', w')
    | (Raise e, self', w') => handler e self' w'
    end.

Definition get_self : M GetFeatures := fun self w => (Return self, self, w).
Definition modify_self (f : GetFeatures -> GetFeatures) : M unit :=
  fun self w => (Return tt, f self, w).
Definition modify_world (f : World -> World) : M unit :=
  fun self w => (Return tt, self, f w).

(** An external call: its exception, when it raises, is [e]. *)
Definition call {A} (e : exn) (o : option A) : M A :=
  match o with
  | Some a => ret a
  | None => raise e
  end.

Declare Scope py_scope.
Delimit Scope py_scope with py.
Notation "x <- m ;; k" := (bind m (fun x => k))
  (at level 100, m at next level, right associativity) : py_scope.
Notation "m ;; k" := (bind m (fun _ => k))
  (at level 100, right associativity) : py_scope.
Local Open Scope py_scope.

(** [for idx, x in enumerate(l, start): body(idx, x)] *)
Fixpoint for_enumerate {A} (start : nat) (l : list A)
    (body : nat -> A -> M unit) : M unit :=
  match l with
  | [] => ret tt
  | x :: r => body start x ;; for_enumerate (S start) r body
  end.

(** ** Attribute updates *)
Definition set_structure (s : Structure) (self : GetFeatures) : GetFeatures :=
  mkGetFeatures (outpath self) (path self) (Some s) (metal_sites self)
    (metal_indices self) (features self) (outname self).

(** [self.metal_sites.append(site)] *)
Definition append_metal_site (site : Site) (self : GetFeatures) : GetFeatures :=
  mkGetFeatures (outpath self) (path self) (structure self)
    (metal_sites self ++ [site]) (metal_indices self) (features self)
    (outname self).

(** [self.metal_indices.append(idx)] *)
Definition append_metal_index (idx : nat) (self : GetFeatures) : GetFeatures :=
  mkGetFeatures (outpath self) (path self) (structure self)
    (metal_sites self) (metal_indices self ++ [idx]) (features self)
    (outname self).

Definition set_features (f : FeatureRecord) (self : GetFeatures) : GetFeatures :=
  mkGetFeatures (outpath self) (path self) (structure self)
    (metal_sites self) (metal_indices self) f (outname self).

(** [d[label][key] = v] on a [defaultdict(dict)]: the inner dict is created
    empty when the label is new, then updated in place. *)
Definition setitem2 (label key : string) (v : vector) (d : FeatureRecord)
    : FeatureRecord :=
  <[label := <[key := v]> (default ∅ (d !! label))]> d.

(** [self.logger.error(msg)] *)
Definition logger_error (msg : string) : M unit :=
  modify_world (fun w => mkWorld (fs w) (log w ++ [mkLogRecord "ERROR" msg])).

Definition write_file (name : string) (c : FileContent) : M unit :=
  modify_world (fun w => mkWorld (<[name := c]> (fs w)) (log w)).

(** ** The class *)

(** [__init__] (the logging configuration is the world's [log]). *)
Definition init (structure_path out : string) : GetFeatures :=
  {| outpath := out;
     path := structure_path;
     structure := None;
     metal_sites := [];
     metal_indices := [];
     features := ∅;
     outname := PosixPath.join out (PosixPath.stem structure_path +:+ ".pkl") |}.

Section Methods.

Variable env : Env.

(** [precheck]: the assignment to [self.structure] happens only when both
    calls returned. *)
Definition precheck : M bool :=
  try_except
    (self <- get_self ;;
     atoms <- call ReadError (read env (path self)) ;;
     s <- call AdaptorError (get_structure env atoms) ;;
     modify_self (set_structure s) ;;
     ret true)
    (fun _ => ret false).

(** The body of the loop of [get_metal_sites]. The test
    [site.species.elements[0].is_metal] raises [IndexError] on an empty
    list and [AttributeError] on a species without that attribute. *)
Definition get_metal_sites_body (idx : nat) (site : Site) : M unit :=
  match elements (species site) with
  | [] => raise IndexError
  | e :: _ =>
      metal <- call AttributeError (is_metal e) ;;
      if metal : bool then
        modify_self (append_metal_site site) ;;
        modify_self (append_metal_index idx)
      else ret tt
  end.

(** [get_metal_sites]: iterating over [None] is a [TypeError]. *)
Definition get_metal_sites : M unit :=
  self <- get_self ;;
  match structure self with
  | None => raise TypeError
  | Some s => for_enumerate 0 s get_metal_sites_body
  end.

(** [get_feature_vectors(site)] *)
Definition get_feature_vectors (site : nat) : M vector :=
  self <- get_self ;;
  match structure self with
  | None => raise TypeError
  | Some s => call FeaturizerError (featurize env s site)
  end.

(** [dump_features]: [open] creates or truncates the file before anything
    is dumped into it; when [pickle.dump] raises, the file is left
    without a complete pickle. *)
Definition dump_features : M unit :=
  self <- get_self ;;
  if open_wb env (outname self) then
    write_file (outname self) Truncated ;;
    if pickle_dump env (features self) then
      write_file (outname self) (Pickled (features self))
    else raise PicklingError
  else raise OSError.

(** The body of the loop of [run_featurization]. In each assignment the
    right-hand side is evaluated before the target's subscript, so a
    featurizer that raises leaves [self.features] untouched. *)
Definition featurize_body (idx : nat) (metal_site : Site) : M unit :=
  self <- get_self ;;
  i <- call IndexError (metal_indices self !! idx) ;;
  X <- get_feature_vectors i ;;
  modify_self (fun self =>
    set_features (setitem2 (species_string metal_site) "feature" X (features self)) self) ;;
  modify_self (fun self =>
    set_features (setitem2 (species_string metal_site) "coords" (coords metal_site) (features self)) self).

(** [run_featurization] *)
Definition run_featurization : M unit :=
  ok <- precheck ;;
  if ok : bool then
    get_metal_sites ;;
    try_except
      (self <- get_self ;;
       for_enumerate 0 (metal_sites self) featurize_body ;;
       dump_features)
      (fun _ =>
         self <- get_self ;;
         logger_error ("could not featurize " +:+ path self))
  else
    self <- get_self ;;
    logger_error ("could not load " +:+ path self).

End Methods.

(** ** Specification-level views of the two loops *)

(** [ase.io.read] followed by [AseAtomsAdaptor.get_structure]. *)
Definition load (env : Env) (p : string) : option Structure :=
  match read env p with
  | Some atoms => get_structure env atoms
  | None => None
  end.

(** The test [site.species.elements[0].is_metal] does not raise: the
    list has a first member and that member has the attribute. *)
Definition indexable (site : Site) : bool :=
  match elements (species site) with
  | [] => false
  | e :: _ => match is_metal e with Some _ => true | None => false end
  end.

(** The exception of that test at a site where it raises. *)
Definition selection_exn (site : Site) : exn :=
  match elements (species site) with
  | [] => IndexError
  | _ :: _ => AttributeError
  end.

(** [site.species.elements[0].is_metal], where the test is defined. *)
Definition site_is_metal (site : Site) : bool :=
  match elements (species site) with
  | e :: _ => match is_metal e with Some metal => metal | None => false end
  | [] => false
  end.

(** The metal sites of a structure with their positions, in site order. *)
Fixpoint select_metals (start : nat) (s : Structure) : list (nat * Site) :=
  match s with
  | [] => []
  | site :: r =>
      if site_is_metal site then (start, site) :: select_metals (S start) r
      else select_metals (S start) r
  end.

(** The two assignments of one loop iteration, on the mapping alone. *)
Definition record_site (X : vector) (site : Site) (d : FeatureRecord)
    : FeatureRecord :=
  setitem2 (species_string site) "coords" (coords site)
    (setitem2 (species_string site) "feature" X d).

(** The mapping after the loop ran over [pairs], and whether it ran to
    the end ([false]: the featurizer raised and the loop stopped there). *)
Fixpoint accumulate (env : Env) (s : Structure) (pairs : list (nat * Site))
    (d : FeatureRecord) : FeatureRecord * bool :=
  match pairs with
  | [] => (d, true)
  | (i, site) :: r =>
      match featurize env s i with
      | Some X => accumulate env s r (record_site X site d)
      | None => (d, false)
      end
  end.

(** The inner dict of a site that was featurized with [X]. *)
Definition entry (X : vector) (site : Site) : gmap string vector :=
  <["coords" := coords site]> (<["feature" := X]> ∅).

(** The instance after a completed [get_metal_sites]. *)
Definition add_metals (pairs : list (nat * Site)) (self : GetFeatures)
    : GetFeatures :=
  mkGetFeatures (outpath self) (path self) (structure self)
    (metal_sites self ++ map snd pairs) (metal_indices self ++ map fst pairs)
    (features self) (outname self).

Definition error_record (msg : string) : LogRecord := mkLogRecord "ERROR" msg.

Definition add_log (r : LogRecord) (w : World) : World :=
  mkWorld (fs w) (log w ++ [r]).

(** Every inner dict holds exactly the two keys the loop writes. *)
Definition two_keys (d : FeatureRecord) : Prop :=
  forall l e, d !! l = Some e ->
    exists X c, e = <["coords" := c]> (<["feature" := X]> (∅ : gmap string vector)).

(** The instance once the structure is loaded and its metal sites are
    selected. *)
Definition selected (s : Structure) (p o : string) : GetFeatures :=
  add_metals (select_metals 0 s) (set_structure s (init p o)).

Definition featurize_failed (p : string) (w : World) : World :=
  add_log (error_record ("could not featurize " +:+ p)) w.

Definition load_failed (p : string) (w : World) : World :=
  add_log (error_record ("could not load " +:+ p)) w.

(** ** Reading the result of a method call *)
Definition outcome {A} (x : result A * GetFeatures * World) : result A := x.1.1.
Definition final_self {A} (x : result A * GetFeatures * World) : GetFeatures := x.1.2.
Definition final_world {A} (x : result A * GetFeatures * World) : World := x.2.

(** A successful run from world [w]: the call returned and logged nothing. *)
Definition successful (w : World) (x : result unit * GetFeatures * World) : Prop :=
  outcome x = Return tt /\ log (final_world x) = log w.


(** ** What the methods leave alone *)

(** [logging.basicConfig(filename=os.path.join(self.outpath, 'log'))]:
    the path of the log file of an instance. *)
Definition logname (out : string) : string := PosixPath.join out "log".

(** The attributes that only [__init__] assigns. *)
Definition same_identity (self self' : GetFeatures) : Prop :=
  outpath self' = outpath self
  /\ path self' = path self
  /\ outname self' = outname self.

(** [metal_sites] and [metal_indices] are parallel lists. *)
Definition aligned (self : GetFeatures) : Prop :=
  length (metal_sites self) = length (metal_indices self).

(** What the selection loop leaves alone, whatever its outcome:
    everything but the two lists, which stay parallel. *)
Definition keeps_but_metals (self : GetFeatures) (w : World)
    (self' : GetFeatures) (w' : World) : Prop :=
  same_identity self self'
  /\ structure self' = structure self
  /\ features self' = features self
  /\ w' = w
  /\ (aligned self -> aligned self').

(** What the featurization loop leaves alone, whatever its outcome:
    everything but the mapping. *)
Definition keeps_but_features (self : GetFeatures) (w : World)
    (self' : GetFeatures) (w' : World) : Prop :=
  same_identity self self'
  /\ structure self' = structure self
  /\ metal_sites self' = metal_sites self
  /\ metal_indices self' = metal_indices self
  /\ w' = w.

(** ** Concrete inputs used by the witnesses and counterexamples *)
Module Samples.

Definition Fe : Element := mkElement "Fe" true.
Definition Cu : Element := mkElement "Cu" true.
Definition Ox : Element := mkElement "O" false.

Definition site_Fe1 : Site := mkSite (mkComposition [Fe]) "Fe" [0; 0; 0]%Q.
Definition site_O : Site := mkSite (mkComposition [Ox]) "O" [1 # 2; 0; 0]%Q.
Definition site_Cu : Site := mkSite (mkComposition [Cu]) "Cu" [0; 1 # 2; 0]%Q.
Definition site_Fe2 : Site := mkSite (mkComposition [Fe]) "Fe" [1 # 2; 1 # 2; 1 # 2]%Q.
(** The placeholder atom [X] of an ASE structure, as pymatgen holds it. *)
Definition X0 : Element := mkDummySpecies "X".
Definition site_X : Site := mkSite (mkComposition [X0]) "X0+" [0; 0; 1 # 2]%Q.

Definition world0 : World := mkWorld ∅ [].

(** An environment over a one-file disk: [atoms] is what reading
    ["data/mof.cif"] gives, every other path fails to load; the
    featurizer returns the one-component vector [idx + 1] except at the
    positions listed in [bad]; [writable] decides [open]. *)
Definition env_of (atoms : Structure) (bad : list nat) (writable : bool) : Env :=
  {| Atoms := Structure;
     read := fun p => if String.eqb p "data/mof.cif" then Some atoms else None;
     get_structure := fun a => Some a;
     featurize := fun _ idx =>
       if existsb (Nat.eqb idx) bad then None
       else Some [inject_Z (Z.of_nat idx + 1)];
     open_wb := fun _ => writable;
     pickle_dump := fun _ => true |}.

(** A four-site structure: iron, oxygen, copper, iron. *)
Definition mof : Structure := [site_Fe1; site_O; site_Cu; site_Fe2].

(** A three-site structure whose metal sites carry distinct labels. *)
Definition mof_distinct : Structure := [site_Fe1; site_O; site_Cu].


(** A structure with a placeholder atom after its iron atom. *)
Definition mof_dummy : Structure := [site_Fe1; site_X].

End Samples.

(** ** Facts about the path helpers *)
Module PosixPathFacts.
Import PosixPath.

Lemma split_cons (c : ascii) (s : string) :
  exists h t, split c s = h :: t.
Proof.
  induction s as [|a r IH]; simpl.
  - by exists "", [].
  - destruct (Ascii.eqb a c); [by eexists _, _|].
    destruct IH as (h & t & ->). by eexists _, _.
Qed.

Lemma split_app_sep (c : ascii) (a b : string) :
  split c (a +:+ String c b) = split c a ++ split c b.
Proof.
  induction a as [|x a IH]; simpl.
  - by rewrite Ascii.eqb_refl.
  - destruct (Ascii.eqb x c); [by rewrite IH|].
    rewrite IH. by destruct (split_cons c a) as (h & t & ->).
Qed.

Lemma split_absent (c : ascii) (s : string) :
  occurs c s = false -> split c s = [s].
Proof.
  induction s as [|a r IH]; simpl; [done|].
  destruct (Ascii.eqb a c); simpl; [done|].
  intros H. by rewrite (IH H).
Qed.

Lemma last_snoc (l : list string) (x d : string) : List.last (l ++ [x]) d = x.
Proof. apply List.last_last. Qed.

(** The name of [dir/nm] is [nm] when [nm] is a proper component. *)
Lemma name_of_child (dir nm : string) :
  occurs sep nm = false -> kept nm = true ->
  name (dir +:+ String sep nm) = nm.
Proof.
  intros Hsep Hkept. unfold name, components.
  rewrite split_app_sep, (split_absent _ _ Hsep), List.filter_app.
  simpl. rewrite Hkept. apply last_snoc.
Qed.

Lemma rfind_app_dot (base ext : string) :
  occurs dot ext = false ->
  rfind dot (base +:+ String dot ext) = Some (String.length base).
Proof.
  intros Hext.
  assert (Hnone : rfind dot ext = None).
  { clear base. induction ext as [|a r IH]; simpl in *; [done|].
    destruct (Ascii.eqb a dot); simpl in *; [done|]. by rewrite (IH Hext). }
  induction base as [|a r IH]; simpl.
  - by rewrite Hnone.
  - by rewrite IH.
Qed.

Lemma length_app (a b : string) :
  String.length (a +:+ b) = String.length a + String.length b.
Proof. induction a as [|x a IH]; simpl; [done|]. by rewrite IH. Qed.

Lemma substring_prefix (a b : string) :
  substring 0 (String.length a) (a +:+ b) = a.
Proof.
  induction a as [|x a IH]; simpl.
  - by destruct b.
  - by rewrite IH.
Qed.

(** The stem of [base.ext] is [base]. *)
Lemma stem_of_name_ext (base ext : string) :
  base <> "" -> ext <> "" -> occurs dot ext = false ->
  stem_of_name (base +:+ String dot ext) = base.
Proof.
  intros Hb He Hdot. unfold stem_of_name.
  rewrite (rfind_app_dot _ _ Hdot).
  assert (H1 : (0 <? String.length base)%nat = true).
  { apply Nat.ltb_lt. destruct base; simpl; [done|lia]. }
  assert (H2 : (String.length base <?
                String.length (base +:+ String dot ext) - 1)%nat = true).
  { apply Nat.ltb_lt. rewrite length_app. simpl.
    destruct ext; simpl; [done|lia]. }
  rewrite H1, H2. simpl. apply substring_prefix.
Qed.

Lemma occurs_app (c : ascii) (a b : string) :
  occurs c (a +:+ b) = (occurs c a || occurs c b)%bool.
Proof.
  induction a as [|x a IH]; simpl; [done|].
  rewrite IH. by destruct (Ascii.eqb x c).
Qed.

Lemma kept_ext (base ext : string) :
  base <> "" -> kept (base +:+ String dot ext) = true.
Proof.
  intros Hb. destruct base as [|x base]; [done|].
  unfold kept. simpl.
  destruct (Ascii.eqb x "."%char); simpl; [by destruct base|done].
Qed.

(** The stem of [dir/base.ext] is [base]. *)
Lemma stem_child_ext (dir base ext : string) :
  base <> "" -> occurs sep base = false ->
  ext <> "" -> occurs sep ext = false -> occurs dot ext = false ->
  stem (dir +:+ String sep (base +:+ String dot ext)) = base.
Proof.
  intros Hb Hbs He Hes Hed. unfold stem.
  rewrite name_of_child.
  - by apply stem_of_name_ext.
  - rewrite occurs_app, Hbs. simpl. by rewrite Hes.
  - by apply kept_ext.
Qed.

Lemma startswith_sep_app (a b : string) :
  a <> "" -> occurs sep a = false -> startswith_sep (a +:+ b) = false.
Proof.
  destruct a as [|x a]; [done|]. simpl. intros _ H.
  by destruct (Ascii.eqb x sep).
Qed.

(** Joining a directory that does not end in a separator with a relative
    name puts exactly one separator between them. *)
Lemma join_plain (a b : string) :
  a <> "" -> endswith_sep a = false -> startswith_sep b = false ->
  join a b = a +:+ "/" +:+ b.
Proof.
  intros Ha He Hb. unfold join. rewrite Hb, He.
  destruct a; [done|]. reflexivity.
Qed.

End PosixPathFacts.

(** ** The methods, stage by stage *)
Section Stages.

Variable env : Env.

Lemma set_features_same (self : GetFeatures) :
  set_features (features self) self = self.
Proof. by destruct self. Qed.

Lemma add_metals_nil (self : GetFeatures) : add_metals [] self = self.
Proof. destruct self. unfold add_metals. simpl. by rewrite !app_nil_r. Qed.

Lemma add_metals_cons (i : nat) (site : Site) (r : list (nat * Site))
    (self : GetFeatures) :
  add_metals r (append_metal_index i (append_metal_site site self))
  = add_metals ((i, site) :: r) self.
Proof.
  unfold add_metals, append_metal_index, append_metal_site. simpl.
  by rewrite <- !app_assoc.
Qed.

(** [precheck] returns whether the structure loaded, and stores it only
    then. *)
Lemma precheck_eq (self : GetFeatures) (w : World) :
  precheck env self w =
    match load env (path self) with
    | Some s => (Return true, set_structure s self, w)
    | None => (Return false, self, w)
    end.
Proof.
  unfold precheck, try_except, bind, get_self, call, load.
  destruct (read env (path self)) as [atoms|]; simpl; [|done].
  by destruct (get_structure env atoms).
Qed.

Lemma for_enumerate_cons {A} (k : nat) (x : A) (r : list A)
    (body : nat -> A -> M unit) (self : GetFeatures) (w : World) :
  for_enumerate k (x :: r) body self w =
    match body k x self w with
    | (Return _, self', w') => for_enumerate (S k) r body self' w'
    | (Raise e, self', w') => (Raise e, self', w')
    end.
Proof. reflexivity. Qed.

Lemma get_metal_sites_body_eq (k : nat) (site : Site) (self : GetFeatures)
    (w : World) :
  get_metal_sites_body k site self w =
    if indexable site then
      (Return tt,
       if site_is_metal site
       then append_metal_index k (append_metal_site site self) else self,
       w)
    else (Raise (selection_exn site), self, w).
Proof.
  unfold get_metal_sites_body, indexable, site_is_metal, selection_exn.
  destruct (elements (species site)) as [|e es]; [done|].
  unfold bind, call. by destruct (is_metal e) as [[]|].
Qed.

(** The selection loop, when the test raises at no site: the metal sites
    and their positions are appended in site order. *)
Lemma select_loop_ok (s : Structure) : forall k self w,
  forallb indexable s = true ->
  for_enumerate k s get_metal_sites_body self w
  = (Return tt, add_metals (select_metals k s) self, w).
Proof.
  induction s as [|site r IH]; intros k self w Hall.
  - simpl. by rewrite add_metals_nil.
  - simpl in Hall. apply andb_true_iff in Hall as [Hsite Hr].
    rewrite for_enumerate_cons, get_metal_sites_body_eq, Hsite.
    rewrite (IH _ _ _ Hr). simpl.
    destruct (site_is_metal site); [|done].
    by rewrite add_metals_cons.
Qed.

(** The selection loop stops at the first site where the test raises,
    with that site's exception; the metal sites before it were appended
    and the world is left as it was. *)
Lemma select_loop_first_failure (s : Structure) : forall k self w,
  forallb indexable s = false ->
  exists pre site post,
    s = pre ++ site :: post
    /\ forallb indexable pre = true
    /\ indexable site = false
    /\ for_enumerate k s get_metal_sites_body self w
       = (Raise (selection_exn site), add_metals (select_metals k pre) self, w).
Proof.
  induction s as [|site r IH]; intros k self w Hall; [done|].
  simpl in Hall. rewrite for_enumerate_cons, get_metal_sites_body_eq.
  destruct (indexable site) eqn:Hsite; simpl in Hall.
  - destruct (IH (S k)
                (if site_is_metal site
                 then append_metal_index k (append_metal_site site self)
                 else self) w Hall)
      as (pre & bad & post & -> & Hpre & Hbad & ->).
    exists (site :: pre), bad, post. simpl. rewrite Hsite, Hpre.
    split; [done|]. split; [done|]. split; [done|].
    destruct (site_is_metal site); [|done]. by rewrite add_metals_cons.
  - exists [], site, r. simpl. by rewrite add_metals_nil.
Qed.

(** The same, for a given first failing site. *)
Lemma select_loop_stops (pre : list Site) : forall k self w site post,
  forallb indexable pre = true -> indexable site = false ->
  for_enumerate k (pre ++ site :: post) get_metal_sites_body self w
  = (Raise (selection_exn site), add_metals (select_metals k pre) self, w).
Proof.
  induction pre as [|x pre IH]; intros k self w site post Hpre Hsite.
  - change ([] ++ site :: post) with (site :: post).
    rewrite for_enumerate_cons, get_metal_sites_body_eq, Hsite.
    simpl select_metals. by rewrite add_metals_nil.
  - simpl in Hpre. apply andb_true_iff in Hpre as [Hx Hpre].
    change ((x :: pre) ++ site :: post) with (x :: (pre ++ site :: post)).
    rewrite for_enumerate_cons, get_metal_sites_body_eq, Hx.
    rewrite (IH _ _ _ _ _ Hpre Hsite). simpl.
    destruct (site_is_metal x); [|done]. by rewrite add_metals_cons.
Qed.

Lemma select_loop_raises (s : Structure) : forall k self w,
  forallb indexable s = false ->
  exists e self', for_enumerate k s get_metal_sites_body self w
                  = (Raise e, self', w).
Proof.
  intros k self w Hall.
  destruct (select_loop_first_failure s k self w Hall)
    as (pre & site & post & _ & _ & _ & E).
  by eexists _, _.
Qed.

Lemma get_metal_sites_eq (self : GetFeatures) (w : World) (s : Structure) :
  structure self = Some s ->
  get_metal_sites self w = for_enumerate 0 s get_metal_sites_body self w.
Proof.
  intros Hs. unfold get_metal_sites, bind, get_self. by rewrite Hs.
Qed.

Lemma featurize_body_eq (k : nat) (site : Site) (self : GetFeatures)
    (w : World) (s : Structure) (i : nat) :
  structure self = Some s -> metal_indices self !! k = Some i ->
  featurize_body env k site self w =
    match featurize env s i with
    | Some X =>
        (Return tt, set_features (record_site X site (features self)) self, w)
    | None => (Raise FeaturizerError, self, w)
    end.
Proof.
  intros Hs Hi.
  unfold featurize_body, bind, get_self, get_feature_vectors, call.
  rewrite Hi. simpl. unfold bind, get_self. rewrite Hs.
  by destruct (featurize env s i).
Qed.

Lemma drop_cons_inv {A} (k : nat) (l : list A) (x : A) (r : list A) :
  drop k l = x :: r -> l !! k = Some x /\ drop (S k) l = r.
Proof.
  intros H.
  assert (Hk : l !! k = Some x).
  { rewrite <- (Nat.add_0_r k), <- lookup_drop. by rewrite H. }
  split; [done|].
  rewrite (drop_S _ _ _ Hk) in H. by injection H.
Qed.

(** The featurization loop over the selected sites: it stops at the first
    position where the featurizer raises, keeps what it recorded before,
    and does not touch the world. *)
Lemma featurize_loop (s : Structure) (pairs : list (nat * Site)) :
  forall k self w,
  structure self = Some s ->
  drop k (metal_indices self) = map fst pairs ->
  for_enumerate k (map snd pairs) (featurize_body env) self w =
    (if (accumulate env s pairs (features self)).2
     then Return tt else Raise FeaturizerError,
     set_features (accumulate env s pairs (features self)).1 self, w).
Proof.
  induction pairs as [|[i site] r IH]; intros k self w Hs Hd.
  - simpl. by rewrite set_features_same.
  - simpl in Hd. apply drop_cons_inv in Hd as [Hi Hd].
    simpl map. rewrite for_enumerate_cons.
    rewrite (featurize_body_eq _ _ _ _ _ _ Hs Hi). simpl.
    destruct (featurize env s i) as [X|]; simpl;
      [|by rewrite set_features_same].
    by rewrite (IH (S k) (set_features _ self) w Hs Hd).
Qed.

(** [dump_features], by cases on what [open] and [pickle.dump] do. *)
Lemma dump_features_eq (self : GetFeatures) (w : World) :
  dump_features env self w =
    if open_wb env (outname self) then
      if pickle_dump env (features self) then
        (Return tt, self,
         mkWorld (<[outname self := Pickled (features self)]> (fs w)) (log w))
      else
        (Raise PicklingError, self,
         mkWorld (<[outname self := Truncated]> (fs w)) (log w))
    else (Raise OSError, self, w).
Proof.
  unfold dump_features, bind, get_self.
  destruct (open_wb env (outname self)); [|done].
  unfold write_file, modify_world. simpl.
  destruct (pickle_dump env (features self)); [|done].
  simpl. by rewrite insert_insert_eq.
Qed.

End Stages.

(** ** A whole run on a fresh instance *)
Section Run.

Variable env : Env.

(** A run whose structure does not load. *)
Lemma run_not_loaded (self : GetFeatures) (w : World) :
  load env (path self) = None ->
  run_featurization env self w = (Return tt, self, load_failed (path self) w).
Proof.
  intros Hl. unfold run_featurization, bind at 1.
  by rewrite precheck_eq, Hl.
Qed.

(** A run whose selection raises. *)
Lemma run_selection_raises (self : GetFeatures) (w : World) (s : Structure) :
  load env (path self) = Some s -> forallb indexable s = false ->
  exists e self', run_featurization env self w = (Raise e, self', w).
Proof.
  intros Hl Hix. unfold run_featurization, bind at 1.
  rewrite precheck_eq, Hl. unfold bind at 1.
  rewrite (get_metal_sites_eq _ _ s) by done.
  destruct (select_loop_raises s 0 (set_structure s self) w Hix)
    as (e & self' & ->).
  by exists e, self'.
Qed.

(** A run on a fresh instance whose structure loads and whose selection
    completes. *)
Lemma run_selected (p o : string) (w : World) (s : Structure) :
  load env p = Some s -> forallb indexable s = true ->
  run_featurization env (init p o) w =
    let acc := accumulate env s (select_metals 0 s) ∅ in
    let self2 := set_features acc.1 (selected s p o) in
    if acc.2 then
      match dump_features env self2 w with
      | (Return _, self3, w3) => (Return tt, self3, w3)
      | (Raise _, self3, w3) => (Return tt, self3, featurize_failed p w3)
      end
    else (Return tt, self2, featurize_failed p w).
Proof.
  intros Hl Hix. unfold run_featurization, bind at 1.
  rewrite precheck_eq. simpl path. rewrite Hl. unfold bind at 1.
  rewrite (get_metal_sites_eq _ _ s) by done.
  rewrite (select_loop_ok s 0 _ w Hix).
  fold (selected s p o).
  unfold try_except, bind at 1, get_self. unfold bind at 1.
  pose proof (featurize_loop env s (select_metals 0 s) 0 (selected s p o) w
                eq_refl eq_refl) as Hloop.
  simpl in Hloop. simpl. rewrite Hloop.
  destruct (accumulate env s (select_metals 0 s) ∅) as [d ok]. simpl.
  destruct ok; [|done].
  rewrite dump_features_eq.
  destruct (open_wb env _); [|done].
  by destruct (pickle_dump env _).
Qed.

End Run.

(** ** The mapping built by the loop *)
Section Accumulate.

Variable env : Env.
Variable s : Structure.

Lemma two_keys_empty : two_keys ∅.
Proof. intros l e H. by rewrite lookup_empty in H. Qed.

Lemma entry_overwrite (X X0 c c0 : vector) :
  <["coords" := c]> (<["feature" := X]>
    (<["coords" := c0]> (<["feature" := X0]> (∅ : gmap string vector))))
  = <["coords" := c]> (<["feature" := X]> ∅).
Proof.
  apply map_eq. intros k. rewrite !lookup_insert.
  repeat case_decide; done.
Qed.

(** On such a mapping one iteration is a plain insertion: the site's
    label is bound to its own feature vector and coordinates, whatever
    was bound to that label before. *)
Lemma record_site_insert (X : vector) (site : Site) (d : FeatureRecord) :
  two_keys d ->
  record_site X site d = <[species_string site := entry X site]> d.
Proof.
  intros Hd. unfold record_site, setitem2.
  rewrite lookup_insert_eq, insert_insert_eq. simpl. f_equal.
  destruct (d !! species_string site) as [e|] eqn:E; simpl; [|done].
  destruct (Hd _ _ E) as (X0 & c0 & ->). apply entry_overwrite.
Qed.

Lemma two_keys_record (X : vector) (site : Site) (d : FeatureRecord) :
  two_keys d -> two_keys (record_site X site d).
Proof.
  intros Hd. rewrite (record_site_insert _ _ _ Hd). intros l e.
  rewrite lookup_insert. case_decide; [|by apply Hd].
  intros [= <-]. by eexists _, _.
Qed.

Lemma record_site_other (X : vector) (site : Site) (d : FeatureRecord)
    (l : string) :
  species_string site <> l -> record_site X site d !! l = d !! l.
Proof.
  intros Hne. unfold record_site, setitem2.
  by rewrite !lookup_insert_ne.
Qed.

Lemma record_site_is_Some (X : vector) (site : Site) (d : FeatureRecord)
    (l : string) :
  is_Some (d !! l) -> is_Some (record_site X site d !! l).
Proof.
  intros Hl. destruct (decide (species_string site = l)) as [<-|Hne].
  - unfold record_site, setitem2. by rewrite lookup_insert_eq.
  - by rewrite record_site_other.
Qed.

Lemma accumulate_two_keys (pairs : list (nat * Site)) : forall d,
  two_keys d -> two_keys (accumulate env s pairs d).1.
Proof.
  induction pairs as [|[i site] r IH]; intros d Hd; simpl; [done|].
  destruct (featurize env s i) as [X|]; [|done].
  apply IH. by apply two_keys_record.
Qed.

Lemma accumulate_app (pre post : list (nat * Site)) : forall d,
  accumulate env s (pre ++ post) d =
    if (accumulate env s pre d).2
    then accumulate env s post (accumulate env s pre d).1
    else ((accumulate env s pre d).1, false).
Proof.
  induction pre as [|[i site] r IH]; intros d; simpl; [done|].
  destruct (featurize env s i) as [X|]; [apply IH|done].
Qed.

(** Labels of no processed site keep their binding. *)
Lemma accumulate_other (pairs : list (nat * Site)) (l : string) : forall d,
  Forall (fun q => species_string q.2 <> l) pairs ->
  (accumulate env s pairs d).1 !! l = d !! l.
Proof.
  induction pairs as [|[i site] r IH]; intros d Hall; simpl; [done|].
  apply Forall_cons in Hall as [Hsite Hr].
  destruct (featurize env s i) as [X|]; [|done].
  rewrite (IH _ Hr). by apply record_site_other.
Qed.

Lemma accumulate_is_Some (pairs : list (nat * Site)) (l : string) : forall d,
  is_Some (d !! l) -> is_Some ((accumulate env s pairs d).1 !! l).
Proof.
  induction pairs as [|[i site] r IH]; intros d Hl; simpl; [done|].
  destruct (featurize env s i) as [X|]; [|done].
  apply IH. by apply record_site_is_Some.
Qed.

(** The loop completes exactly when the featurizer returns at every
    selected position. *)
Lemma accumulate_complete (pairs : list (nat * Site)) : forall d,
  (accumulate env s pairs d).2 = true <->
  Forall (fun q => is_Some (featurize env s q.1)) pairs.
Proof.
  induction pairs as [|[i site] r IH]; intros d; simpl.
  - split; [by constructor|done].
  - rewrite Forall_cons. simpl.
    destruct (featurize env s i) as [X|]; simpl.
    + rewrite IH. split; [by split|by intros [_ ?]].
    + split; [done|]. by intros [[? [=]] _].
Qed.

(** A completed loop binds a label to the last site that carries it. *)
Lemma accumulate_last (pre post : list (nat * Site)) (i : nat) (site : Site)
    (d : FeatureRecord) :
  two_keys d ->
  (accumulate env s (pre ++ (i, site) :: post) d).2 = true ->
  Forall (fun q => species_string q.2 <> species_string site) post ->
  exists X, featurize env s i = Some X /\
    (accumulate env s (pre ++ (i, site) :: post) d).1 !! species_string site
    = Some (entry X site).
Proof.
  intros Hd Hok Hpost. rewrite accumulate_app in Hok |- *.
  destruct (accumulate env s pre d) as [d1 ok1] eqn:Epre. simpl in *.
  destruct ok1; [|done]. simpl in *.
  assert (Hd1 : two_keys d1).
  { replace d1 with (accumulate env s pre d).1 by (by rewrite Epre).
    by apply accumulate_two_keys. }
  destruct (featurize env s i) as [X|]; [|done].
  exists X. split; [done|].
  rewrite (accumulate_other _ _ _ Hpost), (record_site_insert _ _ _ Hd1).
  apply lookup_insert_eq.
Qed.

(** A completed loop over sites with pairwise distinct, new labels adds
    one entry per site. *)
Lemma accumulate_size (pairs : list (nat * Site)) : forall d,
  two_keys d ->
  NoDup (map (fun q => species_string q.2) pairs) ->
  Forall (fun q => d !! species_string q.2 = None) pairs ->
  (accumulate env s pairs d).2 = true ->
  size (accumulate env s pairs d).1 = size d + length pairs.
Proof.
  induction pairs as [|[i site] r IH]; intros d Hd Hnd Hnew Hok; simpl in *.
  - lia.
  - apply NoDup_cons in Hnd as [Hsite Hnd].
    apply Forall_cons in Hnew as [Hnone Hnew]. simpl in Hnone.
    destruct (featurize env s i) as [X|]; [|done].
    rewrite IH; try done.
    + rewrite (record_site_insert _ _ _ Hd).
      rewrite (map_size_insert_None _ _ _ Hnone). lia.
    + by apply two_keys_record.
    + apply Forall_forall. intros [j sj] Hin.
      rewrite Forall_forall in Hnew. specialize (Hnew _ Hin). simpl in *.
      rewrite record_site_other; [done|].
      intros Heq. apply Hsite. rewrite Heq.
      apply list_elem_of_fmap. by exists (j, sj).
Qed.

(** A loop that does not complete stopped at its first failing position
    and holds what the positions before it recorded. *)
Lemma accumulate_stops (pairs : list (nat * Site)) : forall d,
  (accumulate env s pairs d).2 = false ->
  exists pre i site post,
    pairs = pre ++ (i, site) :: post /\
    featurize env s i = None /\
    accumulate env s pre d = ((accumulate env s pairs d).1, true).
Proof.
  induction pairs as [|[i site] r IH]; intros d Hko; simpl in *; [done|].
  destruct (featurize env s i) as [X|] eqn:EX.
  - destruct (IH _ Hko) as (pre & j & sj & post & -> & Hj & Hpre).
    exists ((i, site) :: pre), j, sj, post. simpl. by rewrite EX.
  - by exists [], i, site, r.
Qed.

(** Every site a completed loop went over left its label bound. *)
Lemma accumulate_bound (pairs : list (nat * Site)) : forall d q,
  (accumulate env s pairs d).2 = true -> q ∈ pairs ->
  is_Some ((accumulate env s pairs d).1 !! species_string q.2).
Proof.
  induction pairs as [|[i site] r IH]; intros d q Hok Hq; simpl in *.
  - by apply elem_of_nil in Hq.
  - destruct (featurize env s i) as [X|]; [|done].
    apply elem_of_cons in Hq as [->|Hq]; [|by apply IH].
    apply accumulate_is_Some. simpl.
    unfold record_site, setitem2. by rewrite lookup_insert_eq.
Qed.

End Accumulate.


(** ** Facts about the selection *)
Section Selection.

(** Every selected pair is a metal site of the structure at its own
    position. *)
Lemma select_metals_elem (s : Structure) : forall k i site,
  (i, site) ∈ select_metals k s ->
  exists j, i = k + j /\ s !! j = Some site /\ site_is_metal site = true.
Proof.
  induction s as [|x r IH]; intros k i site Hin; simpl in Hin.
  - by apply elem_of_nil in Hin.
  - destruct (site_is_metal x) eqn:Ex.
    + apply elem_of_cons in Hin as [[= -> ->]|Hin].
      * exists 0. by rewrite Nat.add_0_r.
      * destruct (IH _ _ _ Hin) as (j & -> & Hj & Hm).
        exists (S j). split; [lia|done].
    + destruct (IH _ _ _ Hin) as (j & -> & Hj & Hm).
      exists (S j). split; [lia|done].
Qed.

(** Every metal site of the structure is selected. *)
Lemma select_metals_complete (s : Structure) : forall k j site,
  s !! j = Some site -> site_is_metal site = true ->
  (k + j, site) ∈ select_metals k s.
Proof.
  induction s as [|x r IH]; intros k j site Hj Hm; [done|].
  destruct j as [|j]; simpl in *.
  - injection Hj as ->. rewrite Hm, Nat.add_0_r. apply list_elem_of_here.
  - replace (k + S j) with (S k + j) by lia.
    destruct (site_is_metal x); [apply list_elem_of_further|]; by apply IH.
Qed.


Lemma snoc_neq {A} (l : list A) (x : A) : l ++ [x] <> l.
Proof.
  intros H. apply (f_equal length) in H. rewrite List.length_app in H.
  simpl in H. lia.
Qed.

(** A key bound in a map occurs exactly once in its list of entries. *)
Lemma one_binding {V} (d : gmap string V) (l : string) (e : V) :
  d !! l = Some e ->
  filter (fun kv => kv.1 = l) (map_to_list d) = [(l, e)].
Proof.
  intros Hl. apply elem_of_map_to_list in Hl.
  pose proof (NoDup_fst_map_to_list d) as Hnd.
  induction (map_to_list d) as [|[k v] r IH]; [by apply elem_of_nil in Hl|].
  simpl in Hnd. apply NoDup_cons in Hnd as [Hk Hnd].
  apply elem_of_cons in Hl as [[= <- <-]|Hl].
  - rewrite filter_cons_True by done. f_equal.
    clear IH Hnd. induction r as [|[k' v'] r IH]; [done|].
    rewrite filter_cons_False.
    + apply IH. intros Hin. apply Hk. by apply list_elem_of_further.
    + simpl. intros ->. apply Hk. apply list_elem_of_here.
  - rewrite filter_cons_False; [by apply IH|].
    simpl. intros ->. apply Hk. apply list_elem_of_fmap. by exists (l, e).
Qed.

End Selection.

(** ** Output naming *)
Section Naming.
Import PosixPath PosixPathFacts.

(** C8. For every input path the output file path is the output directory
    joined ([os.path.join]) with the input file's stem followed by
    [.pkl]; in particular an input [dir/base.ext] with output directory
    [out] yields [out/base.pkl]. *)
Theorem outname_is_stem_pkl (structure_path out : string) :
  outname (init structure_path out)
  = join out (stem structure_path +:+ ".pkl")
  /\ forall dir base ext : string,
       structure_path = dir +:+ "/" +:+ base +:+ "." +:+ ext ->
       base <> "" -> occurs sep base = false ->
       ext <> "" -> occurs sep ext = false -> occurs dot ext = false ->
       out <> "" -> endswith_sep out = false ->
       outname (init structure_path out) = out +:+ "/" +:+ base +:+ ".pkl".
Proof.
  split; [reflexivity|].
  intros dir base ext -> Hb Hbs He Hes Hed Ho Hoe. simpl outname.
  change (dir +:+ "/" +:+ base +:+ "." +:+ ext)
    with (dir +:+ String sep (base +:+ String dot ext)).
  rewrite (stem_child_ext dir base ext Hb Hbs He Hes Hed).
  apply join_plain; [done|done|].
  by apply startswith_sep_app.
Qed.

Lemma outname_is_stem_pkl_witness :
  outname (init "/data/mofs/foo.cif" "results/run1") = "results/run1/foo.pkl".
Proof.
  exact (proj2 (outname_is_stem_pkl "/data/mofs/foo.cif" "results/run1")
           "/data/mofs" "foo" "cif" eq_refl
           ltac:(discriminate) eq_refl ltac:(discriminate) eq_refl eq_refl
           ltac:(discriminate) eq_refl).
Defined.

End Naming.

(** ** Serialization *)
Section Serialization.

Variable env : Env.

(** C9. The output path depends on the input path only through its stem:
    two input paths with the same stem and the same output directory get
    the same output path. [dump_features] opens that path for writing, so
    whatever the file system held there is replaced, and nothing is
    logged about it; every other file is left alone. *)
Theorem same_stem_same_outname (p1 p2 out : string) :
  PosixPath.stem p1 = PosixPath.stem p2 ->
  outname (init p1 out) = outname (init p2 out)
  /\ forall (self : GetFeatures) (w : World),
       open_wb env (outname self) = true ->
       fs (final_world (dump_features env self w)) !! outname self
       = Some (if pickle_dump env (features self)
               then Pickled (features self) else Truncated)
       /\ log (final_world (dump_features env self w)) = log w
       /\ forall other : string, other <> outname self ->
            fs (final_world (dump_features env self w)) !! other
            = fs w !! other.
Proof.
  intros Hstem. split; [simpl; by rewrite Hstem|].
  intros self w Hopen. rewrite dump_features_eq, Hopen.
  destruct (pickle_dump env (features self)); unfold final_world; simpl;
    (split; [apply lookup_insert_eq|]); (split; [done|]);
    intros other Hne; by apply lookup_insert_ne.
Qed.

End Serialization.

(** Two inputs with the same stem collide on one output path, and the
    second dump replaces what the first one wrote. *)
Lemma same_stem_same_outname_witness :
  let env := Samples.env_of [Samples.site_Fe1] [] true in
  let old := mkWorld {[ "out/foo.pkl" := Pickled ∅ ]} [] in
  let self := set_features {[ "Fe" := entry [1%Q] Samples.site_Fe1 ]}
                (init "b/foo.xyz" "out") in
  outname (init "a/foo.cif" "out") = outname (init "b/foo.xyz" "out")
  /\ fs (final_world (dump_features env self old)) !! "out/foo.pkl"
     = Some (Pickled {[ "Fe" := entry [1%Q] Samples.site_Fe1 ]}).
Proof.
  intros env old self.
  destruct (same_stem_same_outname env "a/foo.cif" "b/foo.xyz" "out" eq_refl)
    as [Hname Hdump].
  split; [exact Hname|].
  exact (proj1 (Hdump self old eq_refl)).
Defined.

(** ** Loading *)
Section Loading.

Variable env : Env.

(** C10. [precheck] always returns a boolean, never raises, and leaves the
    world (files and log) as it was; when it returns [False] the instance
    is unchanged, so the structure of a fresh instance is still [None]. *)
Theorem precheck_total_atomic (self : GetFeatures) (w : World) :
  exists b : bool,
    outcome (precheck env self w) = Return b
    /\ final_world (precheck env self w) = w
    /\ (b = false ->
        final_self (precheck env self w) = self
        /\ (structure self = None ->
            structure (final_self (precheck env self w)) = None))
    /\ (b = true ->
        exists s, load env (path self) = Some s
                  /\ final_self (precheck env self w) = set_structure s self).
Proof.
  rewrite precheck_eq.
  destruct (load env (path self)) as [s|].
  - exists true. split; [done|]. split; [done|]. split; [done|].
    intros _. by exists s.
  - exists false. split; [done|]. split; [done|]. split; [|done].
    intros _. by split.
Qed.

Lemma precheck_false_load (self : GetFeatures) (w : World) :
  outcome (precheck env self w) = Return false -> load env (path self) = None.
Proof.
  rewrite precheck_eq. by destruct (load env (path self)).
Qed.

(** C7. When the input fails to load ([precheck] returns [False]),
    [run_featurization] returns, leaves every file as it was, and appends
    exactly one [ERROR] record to the log, whose message ends with the
    input path. *)
Theorem load_failure_logs_once (self : GetFeatures) (w : World) :
  outcome (precheck env self w) = Return false ->
  outcome (run_featurization env self w) = Return tt
  /\ final_self (run_featurization env self w) = self
  /\ fs (final_world (run_featurization env self w)) = fs w
  /\ log (final_world (run_featurization env self w))
     = log w ++ [mkLogRecord "ERROR" ("could not load " +:+ path self)].
Proof.
  intros Hpre. apply precheck_false_load in Hpre.
  by rewrite (run_not_loaded env self w Hpre).
Qed.

End Loading.

Lemma load_failure_logs_once_witness :
  let env := Samples.env_of [Samples.site_Fe1] [] true in
  let r := run_featurization env (init "data/broken.cif" "out") Samples.world0 in
  fs (final_world r) = ∅
  /\ log (final_world r)
     = [mkLogRecord "ERROR" "could not load data/broken.cif"].
Proof.
  intros env r.
  destruct (load_failure_logs_once env (init "data/broken.cif" "out")
              Samples.world0 eq_refl) as (_ & _ & Hfs & Hlog).
  split; [exact Hfs|exact Hlog].
Defined.

(** ** Whole runs: what reaches the disk and the log *)
Section Orchestration.

Variable env : Env.

(** A run in which the featurizer raises at some selected position. *)
Lemma run_featurizer_raises (p o : string) (w : World) (s : Structure)
    (i : nat) (site : Site) :
  load env p = Some s -> forallb indexable s = true ->
  (i, site) ∈ select_metals 0 s -> featurize env s i = None ->
  exists pre j sj post,
    select_metals 0 s = pre ++ (j, sj) :: post
    /\ featurize env s j = None
    /\ (accumulate env s pre ∅).2 = true
    /\ run_featurization env (init p o) w
       = (Return tt,
          set_features (accumulate env s pre ∅).1 (selected s p o),
          featurize_failed p w).
Proof.
  intros Hl Hix Hin Hnone.
  assert (Hko : (accumulate env s (select_metals 0 s) ∅).2 = false).
  { destruct (accumulate env s (select_metals 0 s) ∅).2 eqn:E; [|done].
    apply accumulate_complete in E. rewrite Forall_forall in E.
    specialize (E _ Hin). simpl in E. rewrite Hnone in E.
    by destruct E. }
  destruct (accumulate_stops env s _ _ Hko)
    as (pre & j & sj & post & Hsplit & Hj & Hpre).
  exists pre, j, sj, post. rewrite Hpre. simpl.
  split; [done|]. split; [done|]. split; [done|].
  rewrite (run_selected env p o w s Hl Hix). simpl. by rewrite Hko.
Qed.

(** A successful run went through every stage. *)
Lemma successful_run (p o : string) (w : World) (s : Structure) :
  load env p = Some s ->
  successful w (run_featurization env (init p o) w) ->
  forallb indexable s = true
  /\ (accumulate env s (select_metals 0 s) ∅).2 = true
  /\ run_featurization env (init p o) w
     = (Return tt,
        set_features (accumulate env s (select_metals 0 s) ∅).1
          (selected s p o),
        mkWorld
          (<[outname (init p o) :=
               Pickled (accumulate env s (select_metals 0 s) ∅).1]> (fs w))
          (log w)).
Proof.
  intros Hl [Hret Hlog].
  destruct (forallb indexable s) eqn:Hix.
  - rewrite (run_selected env p o w s Hl Hix) in Hret, Hlog |- *.
    simpl in *. rewrite dump_features_eq in Hret, Hlog |- *.
    unfold final_world, featurize_failed, add_log in Hlog.
    destruct (accumulate env s (select_metals 0 s) ∅) as [d ok].
    simpl in *.
    destruct ok; [|by apply snoc_neq in Hlog].
    destruct (open_wb env _); [|by apply snoc_neq in Hlog].
    destruct (pickle_dump env d); [done|by apply snoc_neq in Hlog].
  - destruct (run_selection_raises env (init p o) w s Hl Hix)
      as (e0 & self' & E).
    rewrite E in Hret. discriminate Hret.
Qed.

(** C3. If the featurizer raises for one of the metal sites, the run still
    returns; the loop stopped at the first site where the featurizer
    raised (the mapping holds what the sites before it recorded and
    nothing else), no file was written, and one [ERROR] record naming the
    input path was logged. *)
Theorem featurizer_failure_writes_nothing (p o : string) (w : World)
    (s : Structure) (i : nat) (site : Site) :
  load env p = Some s -> forallb indexable s = true ->
  (i, site) ∈ select_metals 0 s -> featurize env s i = None ->
  outcome (run_featurization env (init p o) w) = Return tt
  /\ fs (final_world (run_featurization env (init p o) w)) = fs w
  /\ log (final_world (run_featurization env (init p o) w))
     = log w ++ [mkLogRecord "ERROR" ("could not featurize " +:+ p)]
  /\ exists pre j sj post,
       select_metals 0 s = pre ++ (j, sj) :: post
       /\ Forall (fun q => is_Some (featurize env s q.1)) pre
       /\ featurize env s j = None
       /\ features (final_self (run_featurization env (init p o) w))
          = (accumulate env s pre ∅).1.
Proof.
  intros Hl Hix Hin Hnone.
  destruct (run_featurizer_raises p o w s i site Hl Hix Hin Hnone)
    as (pre & j & sj & post & Hsplit & Hj & Hpre & ->).
  split; [done|]. split; [done|]. split; [done|].
  exists pre, j, sj, post.
  split; [done|]. split; [by apply (accumulate_complete env s pre ∅)|].
  by split.
Qed.

(** C2, as the code has it. If the featurizer raises for one of the metal
    sites, then after [run_featurization] returned the instance's mapping
    is the one the sites before the failing site built: the label of each
    of them is still bound, and no other label is. *)
Theorem featurizer_failure_keeps_earlier_entries (p o : string) (w : World)
    (s : Structure) (i : nat) (site : Site) :
  load env p = Some s -> forallb indexable s = true ->
  (i, site) ∈ select_metals 0 s -> featurize env s i = None ->
  outcome (run_featurization env (init p o) w) = Return tt
  /\ exists pre j sj post,
       select_metals 0 s = pre ++ (j, sj) :: post
       /\ featurize env s j = None
       /\ features (final_self (run_featurization env (init p o) w))
          = (accumulate env s pre ∅).1
       /\ (forall q, q ∈ pre ->
             is_Some (features (final_self (run_featurization env (init p o) w))
                        !! species_string q.2))
       /\ (forall l, Forall (fun q => species_string q.2 <> l) pre ->
             features (final_self (run_featurization env (init p o) w)) !! l
             = None).
Proof.
  intros Hl Hix Hin Hnone.
  destruct (run_featurizer_raises p o w s i site Hl Hix Hin Hnone)
    as (pre & j & sj & post & Hsplit & Hj & Hpre & ->).
  split; [done|]. exists pre, j, sj, post.
  split; [done|]. split; [done|]. split; [done|].
  unfold final_self. simpl. split.
  - intros q Hq. by apply accumulate_bound.
  - intros l Hnot. by rewrite (accumulate_other env s pre l ∅ Hnot).
Qed.

End Orchestration.

Section Completion.

Variable env : Env.

(** X3. Whenever the test of the metal-site selection raises at no site
    of the loaded structure, [run_featurization] on a fresh instance
    returns normally: a load failure, an exception of the featurizer in
    the per-site loop and an exception of [open] or [pickle.dump] are
    each caught inside the method and leave exactly one [ERROR] record
    naming the input path; otherwise the log is as it was. *)
Theorem run_featurization_returns (p o : string) (w : World) :
  (forall s, load env p = Some s -> forallb indexable s = true) ->
  outcome (run_featurization env (init p o) w) = Return tt
  /\ (load env p = None ->
      log (final_world (run_featurization env (init p o) w))
      = log w ++ [mkLogRecord "ERROR" ("could not load " +:+ p)])
  /\ (forall s, load env p = Some s ->
      let acc := accumulate env s (select_metals 0 s) ∅ in
      log (final_world (run_featurization env (init p o) w))
      = if (acc.2 && open_wb env (outname (init p o))
            && pickle_dump env acc.1)%bool
        then log w
        else log w ++ [mkLogRecord "ERROR" ("could not featurize " +:+ p)]).
Proof.
  intros Hsel. split; [|split].
  - destruct (load env p) as [s|] eqn:Hl.
    + rewrite (run_selected env p o w s Hl (Hsel s eq_refl)). simpl.
      rewrite dump_features_eq.
      destruct (accumulate env s (select_metals 0 s) ∅) as [d ok]. simpl.
      destruct ok; [|done].
      destruct (open_wb env _); [|done].
      by destruct (pickle_dump env d).
    + by rewrite (run_not_loaded env (init p o) w Hl).
  - intros Hl. by rewrite (run_not_loaded env (init p o) w Hl).
  - intros s Hl acc. subst acc.
    rewrite (run_selected env p o w s Hl (Hsel s Hl)). simpl.
    rewrite dump_features_eq.
    destruct (accumulate env s (select_metals 0 s) ∅) as [d ok]. simpl.
    destruct ok; simpl; [|done].
    destruct (open_wb env _); simpl; [|done].
    by destruct (pickle_dump env d).
Qed.


(** C5. When the selected metal sites carry pairwise distinct labels, a
    successful run writes a mapping with exactly one entry per metal
    site: the site's label is bound to the feature vector computed for
    the site's position and to the site's own coordinates. *)
Theorem distinct_labels_one_entry_each (p o : string) (w : World)
    (s : Structure) :
  load env p = Some s ->
  successful w (run_featurization env (init p o) w) ->
  NoDup (map (fun q => species_string q.2) (select_metals 0 s)) ->
  exists d : FeatureRecord,
    fs (final_world (run_featurization env (init p o) w))
      !! outname (init p o) = Some (Pickled d)
    /\ size d = length (select_metals 0 s)
    /\ forall i site, (i, site) ∈ select_metals 0 s ->
         s !! i = Some site
         /\ exists X e,
              featurize env s i = Some X
              /\ d !! species_string site = Some e
              /\ e !! "feature" = Some X
              /\ e !! "coords" = Some (coords site).
Proof.
  intros Hl Hsucc Hnd.
  destruct (successful_run env p o w s Hl Hsucc) as (Hix & Hok & ->).
  exists (accumulate env s (select_metals 0 s) ∅).1.
  split; [apply lookup_insert_eq|]. split.
  - rewrite (accumulate_size env s _ ∅ two_keys_empty Hnd); [done| |done].
    apply Forall_forall. intros q _. apply lookup_empty.
  - intros i site Hin. split.
    + destruct (select_metals_elem s 0 i site Hin) as (j & -> & Hj & _).
      done.
    + destruct (list_elem_of_split _ _ Hin) as (pre & post & Hsplit).
      rewrite Hsplit in Hok, Hnd |- *.
      assert (Hpost : Forall (fun q => species_string q.2 <> species_string site)
                        post).
      { rewrite map_app in Hnd. apply NoDup_app in Hnd as (_ & _ & Hnd).
        simpl in Hnd. apply NoDup_cons in Hnd as [Hnotin _].
        apply Forall_forall. intros q Hq Heq. apply Hnotin.
        apply list_elem_of_fmap. by exists q. }
      destruct (accumulate_last env s pre post i site ∅ two_keys_empty Hok Hpost)
        as (X & HX & Hlook).
      exists X, (entry X site). split; [done|]. split; [done|].
      unfold entry. split; [|apply lookup_insert_eq].
      rewrite lookup_insert_ne by done. apply lookup_insert_eq.
Qed.

(** C4. When two metal sites share a label, a successful run writes a
    mapping that binds the label exactly once, to the feature vector and
    the coordinates of the last metal site, in site order, that carries
    the label. *)
Theorem duplicate_labels_last_site_wins (p o : string) (w : World)
    (s : Structure) (pre mid post : list (nat * Site))
    (i1 i2 : nat) (site1 site2 : Site) :
  load env p = Some s ->
  successful w (run_featurization env (init p o) w) ->
  select_metals 0 s = pre ++ (i1, site1) :: mid ++ (i2, site2) :: post ->
  species_string site1 = species_string site2 ->
  Forall (fun q => species_string q.2 <> species_string site2) post ->
  exists (d : FeatureRecord) (X : vector),
    fs (final_world (run_featurization env (init p o) w))
      !! outname (init p o) = Some (Pickled d)
    /\ s !! i2 = Some site2
    /\ featurize env s i2 = Some X
    /\ d !! species_string site1 = Some (entry X site2)
    /\ entry X site2 !! "feature" = Some X
    /\ entry X site2 !! "coords" = Some (coords site2)
    /\ length (filter (fun kv => kv.1 = species_string site1) (map_to_list d))
       = 1.
Proof.
  intros Hl Hsucc Hsplit Hsame Hpost.
  destruct (successful_run env p o w s Hl Hsucc) as (Hix & Hok & ->).
  assert (Hsplit' : select_metals 0 s
                    = (pre ++ (i1, site1) :: mid) ++ (i2, site2) :: post).
  { rewrite Hsplit, <- app_assoc. done. }
  assert (Hin : (i2, site2) ∈ select_metals 0 s).
  { rewrite Hsplit'. apply elem_of_app. right. apply list_elem_of_here. }
  rewrite Hsplit' in Hok.
  destruct (accumulate_last env s _ post i2 site2 ∅ two_keys_empty Hok Hpost)
    as (X & HX & Hlook).
  rewrite <- Hsplit' in Hlook. rewrite <- Hsame in Hlook.
  exists (accumulate env s (select_metals 0 s) ∅).1, X.
  split; [apply lookup_insert_eq|]. split.
  { destruct (select_metals_elem s 0 i2 site2 Hin) as (j & -> & Hj & _).
    done. }
  split; [done|]. split; [done|]. split.
  { unfold entry. rewrite lookup_insert_ne by done. apply lookup_insert_eq. }
  split; [apply lookup_insert_eq|].
  by rewrite (one_binding _ _ _ Hlook).
Qed.

End Completion.

(** ** Further properties of the selection *)
Section SelectionProperties.

Variable env : Env.

Lemma select_metals_lower_bound (s : Structure) (k : nat) :
  Forall (fun q => k <= q.1) (select_metals k s).
Proof.
  apply Forall_forall. intros [i site] Hin.
  destruct (select_metals_elem s k i site Hin) as (j & -> & _). simpl. lia.
Qed.

(** The selected positions are strictly increasing: the selection keeps
    the order of the structure. *)
Lemma select_metals_increasing (s : Structure) : forall k,
  StronglySorted lt (map fst (select_metals k s)).
Proof.
  induction s as [|site r IH]; intros k; simpl; [constructor|].
  destruct (site_is_metal site); [|apply IH].
  simpl. constructor; [apply IH|].
  apply Forall_forall. intros i Hi.
  apply list_elem_of_fmap in Hi as ([i' site'] & -> & Hin).
  pose proof (select_metals_lower_bound r (S k)) as Hlb.
  rewrite Forall_forall in Hlb. specialize (Hlb _ Hin). simpl in *. lia.
Qed.

(** X1. On a loaded structure in which the test
    [site.species.elements[0].is_metal] raises at no site,
    [get_metal_sites] returns without touching the world and appends, in
    site order, exactly the sites whose first element is a metal to
    [metal_sites] and their positions in the structure to
    [metal_indices]. *)
Theorem get_metal_sites_selects (self : GetFeatures) (w : World)
    (s : Structure) :
  structure self = Some s -> forallb indexable s = true ->
  outcome (get_metal_sites self w) = Return tt
  /\ final_world (get_metal_sites self w) = w
  /\ metal_sites (final_self (get_metal_sites self w))
     = metal_sites self ++ map snd (select_metals 0 s)
  /\ metal_indices (final_self (get_metal_sites self w))
     = metal_indices self ++ map fst (select_metals 0 s)
  /\ StronglySorted lt (map fst (select_metals 0 s))
  /\ forall i site,
       (i, site) ∈ select_metals 0 s
       <-> s !! i = Some site /\ site_is_metal site = true.
Proof.
  intros Hs Hix.
  rewrite (get_metal_sites_eq self w s Hs), (select_loop_ok s 0 self w Hix).
  do 4 (split; [done|]). split; [apply select_metals_increasing|].
  intros i site. split.
  - intros Hin. destruct (select_metals_elem s 0 i site Hin) as (j & -> & H).
    exact H.
  - intros [Hi Hm]. exact (select_metals_complete s 0 i site Hi Hm).
Qed.

(** X2. When the structure loads and the test
    [site.species.elements[0].is_metal] raises at one of its sites (an
    [AttributeError] for a species without [is_metal], an [IndexError]
    for an empty list), that exception leaves [run_featurization] at the
    first such site: the call raises it, nothing is written, nothing is
    logged, and the instance keeps the metal sites selected before that
    site. *)
Theorem selection_failure_propagates (self : GetFeatures) (w : World)
    (s pre : Structure) (site : Site) (post : Structure) :
  load env (path self) = Some s ->
  s = pre ++ site :: post ->
  forallb indexable pre = true -> indexable site = false ->
  outcome (run_featurization env self w) = Raise (selection_exn site)
  /\ final_world (run_featurization env self w) = w
  /\ metal_sites (final_self (run_featurization env self w))
     = metal_sites self ++ map snd (select_metals 0 pre)
  /\ features (final_self (run_featurization env self w)) = features self.
Proof.
  intros Hl -> Hpre Hsite.
  assert (E : run_featurization env self w
              = (Raise (selection_exn site),
                 add_metals (select_metals 0 pre)
                   (set_structure (pre ++ site :: post) self), w)).
  { unfold run_featurization, bind at 1.
    rewrite precheck_eq, Hl. unfold bind at 1.
    rewrite (get_metal_sites_eq _ _ (pre ++ site :: post)) by done.
    by rewrite (select_loop_stops pre 0 _ w site post Hpre Hsite). }
  rewrite E. by repeat split.
Qed.

End SelectionProperties.

Lemma get_metal_sites_selects_witness :
  let self := set_structure Samples.mof (init "data/mof.cif" "out") in
  metal_sites (final_self (get_metal_sites self Samples.world0))
  = [Samples.site_Fe1; Samples.site_Cu; Samples.site_Fe2]
  /\ metal_indices (final_self (get_metal_sites self Samples.world0))
     = [0; 2; 3].
Proof.
  intros self.
  destruct (get_metal_sites_selects self Samples.world0 Samples.mof
              eq_refl eq_refl) as (_ & _ & Hsites & Hidx & _).
  split; [exact Hsites|exact Hidx].
Defined.

Lemma selection_failure_propagates_witness :
  let env := Samples.env_of Samples.mof_dummy [] true in
  let r := run_featurization env (init "data/mof.cif" "out") Samples.world0 in
  outcome r = Raise AttributeError
  /\ final_world r = Samples.world0
  /\ metal_sites (final_self r) = [Samples.site_Fe1].
Proof.
  intros env r.
  destruct (selection_failure_propagates env (init "data/mof.cif" "out")
              Samples.world0 Samples.mof_dummy [Samples.site_Fe1]
              Samples.site_X [] eq_refl eq_refl eq_refl eq_refl)
    as (Hret & Hw & Hsites & _).
  split; [exact Hret|]. split; [exact Hw|exact Hsites].
Defined.

(** ** Concrete runs *)

(** C1, on the code. The file loads into an iron atom and a placeholder
    atom; [is_metal] raises [AttributeError] at the placeholder inside
    [get_metal_sites], and that call sits on the line before the [try]:
    the exception leaves [run_featurization], and nothing is logged. The
    claim says that every failure, one during metal-site selection
    included, is caught inside the method and logged. *)
Lemma selection_exception_escapes :
  let env := Samples.env_of Samples.mof_dummy [] true in
  let r := run_featurization env (init "data/mof.cif" "out") Samples.world0 in
  load env "data/mof.cif" = Some Samples.mof_dummy
  /\ outcome r = Raise AttributeError
  /\ outcome r <> Return tt
  /\ log (final_world r) = [].
Proof.
  intros env r. split; [reflexivity|]. split; [reflexivity|].
  split; [discriminate|reflexivity].
Qed.

Lemma run_featurization_returns_witness :
  let env := Samples.env_of Samples.mof [2] true in
  let r := run_featurization env (init "data/mof.cif" "out") Samples.world0 in
  outcome r = Return tt
  /\ log (final_world r)
     = [mkLogRecord "ERROR" "could not featurize data/mof.cif"].
Proof.
  intros env r.
  assert (Hsel : forall s, load env "data/mof.cif" = Some s ->
                           forallb indexable s = true).
  { intros s Hs. injection Hs as <-. reflexivity. }
  destruct (run_featurization_returns env "data/mof.cif" "out" Samples.world0
              Hsel) as (Hret & _ & Hlog).
  split; [exact Hret|]. exact (Hlog Samples.mof eq_refl).
Defined.

(** C2, as stated, fails: the featurizer raises at the copper site, the
    third of the structure, and the entry of the iron site processed
    before it is still in the instance's mapping after the call. *)
Lemma earlier_entries_survive_failure :
  let env := Samples.env_of Samples.mof [2] true in
  let r := run_featurization env (init "data/mof.cif" "out") Samples.world0 in
  select_metals 0 Samples.mof = [(0, Samples.site_Fe1); (2, Samples.site_Cu);
                         (3, Samples.site_Fe2)]
  /\ featurize env Samples.mof 0 = Some [1%Q]
  /\ featurize env Samples.mof 2 = None
  /\ outcome r = Return tt
  /\ features (final_self r) !! "Fe" = Some (entry [1%Q] Samples.site_Fe1)
  /\ features (final_self r) <> ∅.
Proof.
  intros env r.
  assert (Hfe : features (final_self r) !! "Fe"
                = Some (entry [1%Q] Samples.site_Fe1)) by (vm_compute; reflexivity).
  do 4 (split; [reflexivity|]). split; [exact Hfe|].
  intros Hempty. rewrite Hempty, lookup_empty in Hfe. discriminate Hfe.
Qed.

Lemma featurizer_failure_keeps_earlier_entries_witness :
  let env := Samples.env_of Samples.mof [2] true in
  let r := run_featurization env (init "data/mof.cif" "out") Samples.world0 in
  outcome r = Return tt
  /\ exists pre j sj post,
       select_metals 0 Samples.mof = pre ++ (j, sj) :: post
       /\ featurize env Samples.mof j = None
       /\ features (final_self r) = (accumulate env Samples.mof pre ∅).1
       /\ (forall q, q ∈ pre ->
             is_Some (features (final_self r) !! species_string q.2))
       /\ (forall l, Forall (fun q => species_string q.2 <> l) pre ->
             features (final_self r) !! l = None).
Proof.
  intros env r.
  assert (Hin : (2, Samples.site_Cu) ∈ select_metals 0 Samples.mof).
  { apply list_elem_of_further, list_elem_of_here. }
  exact (featurizer_failure_keeps_earlier_entries env "data/mof.cif" "out"
           Samples.world0 Samples.mof 2 Samples.site_Cu eq_refl eq_refl Hin eq_refl).
Defined.

Lemma featurizer_failure_writes_nothing_witness :
  let env := Samples.env_of Samples.mof [2] true in
  let r := run_featurization env (init "data/mof.cif" "out") Samples.world0 in
  outcome r = Return tt
  /\ fs (final_world r) = ∅
  /\ log (final_world r)
     = [mkLogRecord "ERROR" "could not featurize data/mof.cif"].
Proof.
  intros env r.
  assert (Hin : (2, Samples.site_Cu) ∈ select_metals 0 Samples.mof).
  { apply list_elem_of_further, list_elem_of_here. }
  destruct (featurizer_failure_writes_nothing env "data/mof.cif" "out"
              Samples.world0 Samples.mof 2 Samples.site_Cu eq_refl eq_refl Hin eq_refl)
    as (Hret & Hfs & Hlog & _).
  split; [exact Hret|]. split; [exact Hfs|exact Hlog].
Defined.

Lemma duplicate_labels_last_site_wins_witness :
  let env := Samples.env_of Samples.mof [] true in
  let r := run_featurization env (init "data/mof.cif" "out") Samples.world0 in
  exists (d : FeatureRecord) (X : vector),
    fs (final_world r) !! "out/mof.pkl" = Some (Pickled d)
    /\ Samples.mof !! 3 = Some Samples.site_Fe2
    /\ featurize env Samples.mof 3 = Some X
    /\ d !! "Fe" = Some (entry X Samples.site_Fe2)
    /\ entry X Samples.site_Fe2 !! "feature" = Some X
    /\ entry X Samples.site_Fe2 !! "coords" = Some (coords Samples.site_Fe2)
    /\ length (filter (fun kv => kv.1 = "Fe") (map_to_list d)) = 1.
Proof.
  intros env r.
  assert (Hsucc : successful Samples.world0 r).
  { split; vm_compute; reflexivity. }
  exact (duplicate_labels_last_site_wins env "data/mof.cif" "out"
           Samples.world0 Samples.mof [] [(2, Samples.site_Cu)] [] 0 3
           Samples.site_Fe1 Samples.site_Fe2
           eq_refl Hsucc eq_refl eq_refl (Forall_nil_2 _)).
Defined.

Lemma distinct_labels_one_entry_each_witness :
  let env := Samples.env_of Samples.mof_distinct [] true in
  let r := run_featurization env (init "data/mof.cif" "out") Samples.world0 in
  exists d : FeatureRecord,
    fs (final_world r) !! "out/mof.pkl" = Some (Pickled d)
    /\ size d = 2
    /\ forall i site, (i, site) ∈ select_metals 0 Samples.mof_distinct ->
         Samples.mof_distinct !! i = Some site
         /\ exists X e,
              featurize env Samples.mof_distinct i = Some X
              /\ d !! species_string site = Some e
              /\ e !! "feature" = Some X
              /\ e !! "coords" = Some (coords site).
Proof.
  intros env r.
  assert (Hsucc : successful Samples.world0 r).
  { split; vm_compute; reflexivity. }
  assert (Hnd : NoDup (map (fun q : nat * Site => species_string q.2)
                         (select_metals 0 Samples.mof_distinct))).
  { apply NoDup_cons. split.
    - intros Hin. apply list_elem_of_singleton in Hin. discriminate Hin.
    - apply NoDup_singleton. }
  exact (distinct_labels_one_entry_each env "data/mof.cif" "out"
           Samples.world0 Samples.mof_distinct eq_refl Hsucc Hnd).
Defined.


(** ** Runs on an arbitrary instance *)
Section AnyInstance.

Variable env : Env.

(** A loop keeps every reflexive and transitive relation its body keeps. *)
Lemma for_enumerate_rel {A}
    (R : GetFeatures -> World -> GetFeatures -> World -> Prop)
    (body : nat -> A -> M unit) :
  (forall self w, R self w self w) ->
  (forall s1 w1 s2 w2 s3 w3, R s1 w1 s2 w2 -> R s2 w2 s3 w3 -> R s1 w1 s3 w3) ->
  (forall k x self w,
     R self w (final_self (body k x self w)) (final_world (body k x self w))) ->
  forall l k self w,
    R self w (final_self (for_enumerate k l body self w))
      (final_world (for_enumerate k l body self w)).
Proof.
  intros Hrefl Htrans Hbody l. induction l as [|x r IH]; intros k self w.
  - apply Hrefl.
  - rewrite for_enumerate_cons. specialize (Hbody k x self w).
    destruct (body k x self w) as [[r1 self1] w1].
    unfold final_self, final_world in Hbody. simpl in Hbody.
    destruct r1 as [[]|e]; [|done].
    exact (Htrans _ _ _ _ _ _ Hbody (IH (S k) self1 w1)).
Qed.

Lemma keeps_but_metals_refl (self : GetFeatures) (w : World) :
  keeps_but_metals self w self w.
Proof. by repeat split. Qed.

Lemma keeps_but_metals_trans (s1 : GetFeatures) (w1 : World)
    (s2 : GetFeatures) (w2 : World) (s3 : GetFeatures) (w3 : World) :
  keeps_but_metals s1 w1 s2 w2 -> keeps_but_metals s2 w2 s3 w3 ->
  keeps_but_metals s1 w1 s3 w3.
Proof.
  unfold keeps_but_metals, same_identity.
  intros ((Ho & Hp & Hn) & Hs & Hf & Hw & Ha)
         ((Ho' & Hp' & Hn') & Hs' & Hf' & Hw' & Ha').
  repeat split; try congruence. auto.
Qed.

Lemma keeps_but_features_refl (self : GetFeatures) (w : World) :
  keeps_but_features self w self w.
Proof. by repeat split. Qed.

Lemma keeps_but_features_trans (s1 : GetFeatures) (w1 : World)
    (s2 : GetFeatures) (w2 : World) (s3 : GetFeatures) (w3 : World) :
  keeps_but_features s1 w1 s2 w2 -> keeps_but_features s2 w2 s3 w3 ->
  keeps_but_features s1 w1 s3 w3.
Proof.
  unfold keeps_but_features, same_identity.
  intros ((Ho & Hp & Hn) & Hs & Hm & Hi & Hw)
         ((Ho' & Hp' & Hn') & Hs' & Hm' & Hi' & Hw').
  repeat split; congruence.
Qed.

Lemma get_metal_sites_body_keeps (k : nat) (site : Site) (self : GetFeatures)
    (w : World) :
  keeps_but_metals self w
    (final_self (get_metal_sites_body k site self w))
    (final_world (get_metal_sites_body k site self w)).
Proof.
  rewrite get_metal_sites_body_eq.
  destruct (indexable site); [|apply keeps_but_metals_refl].
  destruct (site_is_metal site); [|apply keeps_but_metals_refl].
  unfold keeps_but_metals, same_identity, aligned, final_self, final_world.
  simpl. repeat split. intros Ha. rewrite !List.length_app, Ha. done.
Qed.

Lemma featurize_body_keeps (k : nat) (site : Site) (self : GetFeatures)
    (w : World) :
  keeps_but_features self w
    (final_self (featurize_body env k site self w))
    (final_world (featurize_body env k site self w)).
Proof.
  unfold featurize_body, bind, get_self, call.
  destruct (metal_indices self !! k) as [i|]; simpl;
    [|apply keeps_but_features_refl].
  unfold get_feature_vectors, bind, get_self, call.
  destruct (structure self) as [s|] eqn:Hs; simpl;
    [|apply keeps_but_features_refl].
  destruct (featurize env s i) as [X|]; simpl;
    [|apply keeps_but_features_refl].
  unfold keeps_but_features, same_identity, final_self, final_world. simpl.
  by repeat split.
Qed.

(** [get_metal_sites], whatever its outcome. *)
Lemma get_metal_sites_keeps (self : GetFeatures) (w : World) :
  keeps_but_metals self w (final_self (get_metal_sites self w))
    (final_world (get_metal_sites self w)).
Proof.
  unfold get_metal_sites, bind, get_self.
  destruct (structure self) as [s|]; [|apply keeps_but_metals_refl].
  apply for_enumerate_rel.
  - apply keeps_but_metals_refl.
  - apply keeps_but_metals_trans.
  - apply get_metal_sites_body_keeps.
Qed.

(** A run whose selection raises, with what it leaves alone. *)
Lemma run_selection_raises_keeps (self : GetFeatures) (w : World)
    (s : Structure) :
  load env (path self) = Some s -> forallb indexable s = false ->
  exists e self',
    run_featurization env self w = (Raise e, self', w)
    /\ same_identity self self'
    /\ structure self' = Some s
    /\ features self' = features self
    /\ (aligned self -> aligned self').
Proof.
  intros Hl Hix. unfold run_featurization, bind at 1.
  rewrite precheck_eq, Hl. unfold bind at 1.
  pose proof (get_metal_sites_keeps (set_structure s self) w) as F.
  rewrite (get_metal_sites_eq _ _ s) in F |- * by done.
  destruct (select_loop_raises s 0 (set_structure s self) w Hix)
    as (e & self' & E).
  rewrite E in F |- *. exists e, self'. split; [done|].
  destruct F as (Hid & Hs & Hf & _ & Ha).
  split; [exact Hid|]. split; [exact Hs|]. split; [exact Hf|exact Ha].
Qed.

(** A run whose structure loads and whose selection completes, on any
    instance, in terms of its loop and of [dump_features]. *)
Lemma run_loaded_unfold (self : GetFeatures) (w : World) (s : Structure) :
  load env (path self) = Some s -> forallb indexable s = true ->
  run_featurization env self w =
    match for_enumerate 0
            (metal_sites (add_metals (select_metals 0 s) (set_structure s self)))
            (featurize_body env)
            (add_metals (select_metals 0 s) (set_structure s self)) w with
    | (Return _, self3, w3) =>
        match dump_features env self3 w3 with
        | (Return _, self4, w4) => (Return tt, self4, w4)
        | (Raise _, self4, w4) =>
            (Return tt, self4, featurize_failed (path self4) w4)
        end
    | (Raise _, self3, w3) =>
        (Return tt, self3, featurize_failed (path self3) w3)
    end.
Proof.
  intros Hl Hix. unfold run_featurization, bind at 1.
  rewrite precheck_eq, Hl. unfold bind at 1.
  rewrite (get_metal_sites_eq _ _ s) by done.
  rewrite (select_loop_ok s 0 _ w Hix).
  unfold try_except, bind at 1, get_self. unfold bind at 1.
  destruct (for_enumerate 0 _ (featurize_body env) _ w) as [[r self3] w3].
  destruct r as [[]|e]; [|done].
  by destruct (dump_features env self3 w3) as [[[[]|e] self4] w4].
Qed.

(** Such a run returns, and ends in one of three worlds. *)
Lemma run_loaded_general (self : GetFeatures) (w : World) (s : Structure) :
  load env (path self) = Some s -> forallb indexable s = true ->
  exists self',
    same_identity self self'
    /\ structure self' = Some s
    /\ metal_sites self' = metal_sites self ++ map snd (select_metals 0 s)
    /\ metal_indices self' = metal_indices self ++ map fst (select_metals 0 s)
    /\ (run_featurization env self w
        = (Return tt, self', featurize_failed (path self) w)
        \/ (open_wb env (outname self) = true
            /\ pickle_dump env (features self') = true
            /\ run_featurization env self w
               = (Return tt, self',
                  mkWorld (<[outname self := Pickled (features self')]> (fs w))
                    (log w)))
        \/ (open_wb env (outname self) = true
            /\ pickle_dump env (features self') = false
            /\ run_featurization env self w
               = (Return tt, self',
                  featurize_failed (path self)
                    (mkWorld (<[outname self := Truncated]> (fs w)) (log w))))).
Proof.
  intros Hl Hix. rewrite (run_loaded_unfold self w s Hl Hix).
  set (self2 := add_metals (select_metals 0 s) (set_structure s self)).
  pose proof (for_enumerate_rel keeps_but_features (featurize_body env)
                keeps_but_features_refl keeps_but_features_trans
                featurize_body_keeps (metal_sites self2) 0 self2 w) as F.
  destruct (for_enumerate 0 (metal_sites self2) (featurize_body env) self2 w)
    as [[r self3] w3].
  destruct F as ((Ho & Hp & Hn) & Hs & Hm & Hi & Hw).
  unfold final_self, final_world in *. simpl in *. subst w3.
  exists self3.
  split; [by repeat split|]. split; [done|]. split; [done|]. split; [done|].
  destruct r as [[]|e]; [|left; by rewrite Hp].
  rewrite dump_features_eq, Hn.
  destruct (open_wb env (outname self)); [|left; by rewrite Hp].
  destruct (pickle_dump env (features self3)).
  - right. left. by repeat split.
  - right. right. rewrite Hp. by repeat split.
Qed.

(** X4. Whatever the state of the instance and whatever happens,
    [run_featurization] never reassigns [outpath], [path] or [outname],
    never touches a file other than [outname], and never removes or
    rewrites a log record: the log grows by at most one record, of level
    [ERROR], whose message ends with the input path. *)
Theorem run_featurization_frame (self : GetFeatures) (w : World) :
  same_identity self (final_self (run_featurization env self w))
  /\ (forall other : string, other <> outname self ->
        fs (final_world (run_featurization env self w)) !! other
        = fs w !! other)
  /\ (log (final_world (run_featurization env self w)) = log w
      \/ log (final_world (run_featurization env self w))
         = log w ++ [mkLogRecord "ERROR" ("could not load " +:+ path self)]
      \/ log (final_world (run_featurization env self w))
         = log w ++ [mkLogRecord "ERROR" ("could not featurize " +:+ path self)]).
Proof.
  destruct (load env (path self)) as [s|] eqn:Hl.
  - destruct (forallb indexable s) eqn:Hix.
    + destruct (run_loaded_general self w s Hl Hix)
        as (self' & Hid & _ & _ & _ & [E|[(_ & _ & E)|(_ & _ & E)]]);
        rewrite E; unfold final_self, final_world; simpl;
        (split; [done|]); split.
      * done.
      * by right; right.
      * intros other Hne. by apply lookup_insert_ne.
      * by left.
      * intros other Hne. by apply lookup_insert_ne.
      * by right; right.
    + destruct (run_selection_raises_keeps self w s Hl Hix)
        as (e0 & self' & E & Hid & _).
      rewrite E. split; [done|]. split; [done|]. by left.
  - rewrite (run_not_loaded env self w Hl).
    split; [by repeat split|]. split; [done|]. by right; left.
Qed.

(** X5. The two lists stay parallel: if [metal_sites] and
    [metal_indices] have the same length before [get_metal_sites], they
    have the same length after it, also when it raises part-way; and the
    same holds across a whole [run_featurization]. *)
Theorem metal_lists_stay_aligned (self : GetFeatures) (w : World) :
  aligned self ->
  aligned (final_self (get_metal_sites self w))
  /\ aligned (final_self (run_featurization env self w)).
Proof.
  intros Ha. split.
  - by apply (get_metal_sites_keeps self w).
  - destruct (load env (path self)) as [s|] eqn:Hl.
    + destruct (forallb indexable s) eqn:Hix.
      * destruct (run_loaded_general self w s Hl Hix)
          as (self' & _ & _ & Hm & Hi & [E|[(_ & _ & E)|(_ & _ & E)]]);
          rewrite E; unfold final_self, aligned in *; simpl;
          rewrite Hm, Hi, !List.length_app, !length_map, Ha; done.
      * destruct (run_selection_raises_keeps self w s Hl Hix)
          as (e0 & self' & E & _ & _ & _ & Ha').
        rewrite E. by apply Ha'.
    + by rewrite (run_not_loaded env self w Hl).
Qed.

End AnyInstance.

(** ** Success, failure, and what is left behind *)
Section Outcomes.

Variable env : Env.

(** A silent run on a fresh instance went through every stage. *)
Lemma silent_run_stages (p o : string) (w : World) :
  successful w (run_featurization env (init p o) w) ->
  exists s,
    load env p = Some s
    /\ forallb indexable s = true
    /\ Forall (fun q => is_Some (featurize env s q.1)) (select_metals 0 s)
    /\ open_wb env (outname (init p o)) = true
    /\ pickle_dump env (accumulate env s (select_metals 0 s) ∅).1 = true.
Proof.
  intros [Hret Hlog]. destruct (load env p) as [s|] eqn:Hl.
  - exists s. split; [done|].
    destruct (forallb indexable s) eqn:Hix.
    + split; [done|].
      rewrite (run_selected env p o w s Hl Hix) in Hlog. simpl in Hlog.
      rewrite dump_features_eq in Hlog.
      rewrite <- (accumulate_complete env s (select_metals 0 s) ∅).
      unfold final_world, featurize_failed, add_log in Hlog.
      destruct (accumulate env s (select_metals 0 s) ∅) as [d ok].
      simpl in *.
      destruct ok; [|by apply snoc_neq in Hlog].
      destruct (open_wb env _); [|by apply snoc_neq in Hlog].
      destruct (pickle_dump env d); [done|by apply snoc_neq in Hlog].
    + destruct (run_selection_raises env (init p o) w s Hl Hix)
      as (e0 & self' & E).
      rewrite E in Hret. discriminate Hret.
  - rewrite (run_not_loaded env (init p o) w Hl) in Hlog.
    unfold final_world, load_failed, add_log in Hlog. simpl in Hlog.
    by apply snoc_neq in Hlog.
Qed.

(** X6. On a fresh instance, a run is silent (it returns and logs
    nothing) exactly when every stage went through: the structure
    loads, the selection test raises at no site, the featurizer returns at
    every metal position, [open] succeeds and [pickle.dump] succeeds on
    the accumulated mapping. *)
Theorem silent_run_iff_complete (p o : string) (w : World) :
  successful w (run_featurization env (init p o) w)
  <-> exists s,
        load env p = Some s
        /\ forallb indexable s = true
        /\ Forall (fun q => is_Some (featurize env s q.1)) (select_metals 0 s)
        /\ open_wb env (outname (init p o)) = true
        /\ pickle_dump env (accumulate env s (select_metals 0 s) ∅).1 = true.
Proof.
  split; [apply silent_run_stages|].
  intros (s & Hl & Hix & Hall & Hopen & Hpickle). unfold successful.
  rewrite (run_selected env p o w s Hl Hix). simpl.
  rewrite dump_features_eq. simpl in *.
  apply (accumulate_complete env s (select_metals 0 s) ∅) in Hall.
  destruct (accumulate env s (select_metals 0 s) ∅) as [d ok].
  simpl in *. subst ok. by rewrite Hopen, Hpickle.
Qed.

(** X7. Disk and memory agree after a silent run, whatever the state of
    the instance before it: the output file holds the pickled mapping
    that the instance holds when the call returns. *)
Theorem silent_run_file_matches_memory (self : GetFeatures) (w : World) :
  successful w (run_featurization env self w) ->
  fs (final_world (run_featurization env self w)) !! outname self
  = Some (Pickled (features (final_self (run_featurization env self w)))).
Proof.
  intros [Hret Hlog]. destruct (load env (path self)) as [s|] eqn:Hl.
  - destruct (forallb indexable s) eqn:Hix.
    + destruct (run_loaded_general env self w s Hl Hix)
        as (self' & _ & _ & _ & _ & [E|[(_ & _ & E)|(_ & _ & E)]]);
        rewrite E in Hlog |- *;
        unfold final_world, final_self, featurize_failed, add_log in *;
        simpl in *.
      * by apply snoc_neq in Hlog.
      * apply lookup_insert_eq.
      * by apply snoc_neq in Hlog.
    + destruct (run_selection_raises env self w s Hl Hix)
      as (e0 & self' & E).
      rewrite E in Hret. discriminate Hret.
  - rewrite (run_not_loaded env self w Hl) in Hlog.
    unfold final_world, load_failed, add_log in Hlog. simpl in Hlog.
    by apply snoc_neq in Hlog.
Qed.

(** X8. When the loop completes but the serialization fails, the run
    returns with one error record and the complete mapping still on the
    instance. If [open] raised, no file changed; if [pickle.dump] raised
    after [open] succeeded, what the output path held before is gone and
    no complete pickle took its place (the file is empty or holds the
    part of the dump written before the exception). *)
Theorem serialization_failure_outcome (p o : string) (w : World)
    (s : Structure) :
  load env p = Some s -> forallb indexable s = true ->
  Forall (fun q => is_Some (featurize env s q.1)) (select_metals 0 s) ->
  (open_wb env (outname (init p o))
   && pickle_dump env (accumulate env s (select_metals 0 s) ∅).1)%bool = false ->
  outcome (run_featurization env (init p o) w) = Return tt
  /\ features (final_self (run_featurization env (init p o) w))
     = (accumulate env s (select_metals 0 s) ∅).1
  /\ log (final_world (run_featurization env (init p o) w))
     = log w ++ [mkLogRecord "ERROR" ("could not featurize " +:+ p)]
  /\ fs (final_world (run_featurization env (init p o) w))
     = if open_wb env (outname (init p o))
       then <[outname (init p o) := Truncated]> (fs w)
       else fs w.
Proof.
  intros Hl Hix Hall Hio.
  rewrite (run_selected env p o w s Hl Hix). simpl.
  rewrite dump_features_eq. simpl in *.
  apply (accumulate_complete env s (select_metals 0 s) ∅) in Hall.
  destruct (accumulate env s (select_metals 0 s) ∅) as [d ok].
  simpl in *. subst ok.
  destruct (open_wb env _); simpl in *; [|done].
  by rewrite Hio.
Qed.

(** Every binding of an accumulated mapping was there before or is the
    complete record of one of the processed sites. *)
Lemma accumulate_entries (s : Structure) (pairs : list (nat * Site)) :
  forall d l e,
  two_keys d ->
  (accumulate env s pairs d).1 !! l = Some e ->
  d !! l = Some e
  \/ exists i site X,
       (i, site) ∈ pairs /\ species_string site = l
       /\ featurize env s i = Some X /\ e = entry X site.
Proof.
  induction pairs as [|[i site] r IH]; intros d l e Hd Hl; simpl in Hl.
  - by left.
  - destruct (featurize env s i) as [X|] eqn:HX; [|by left].
    destruct (IH _ _ _ (two_keys_record X site d Hd) Hl)
      as [Hrec|(j & sj & Y & Hin & Hlab & HY & He)].
    + rewrite (record_site_insert _ _ _ Hd), lookup_insert in Hrec.
      case_decide as Hcase; [|by left].
      injection Hrec as <-. right. exists i, site, X.
      split; [apply list_elem_of_here|done].
    + right. exists j, sj, Y. split; [by apply list_elem_of_further|done].
Qed.

(** X9. After a run on a fresh instance, however it ended, every entry
    of the instance's mapping is the complete record of a metal site of
    the loaded structure: it is bound to that site's label and holds the
    feature vector computed at the site's position together with the
    site's coordinates. No entry ever holds one of the two keys alone. *)
Theorem entries_always_complete (p o : string) (w : World) (l : string)
    (e : gmap string vector) :
  features (final_self (run_featurization env (init p o) w)) !! l = Some e ->
  exists s i site X,
    load env p = Some s
    /\ s !! i = Some site
    /\ site_is_metal site = true
    /\ species_string site = l
    /\ featurize env s i = Some X
    /\ e !! "feature" = Some X
    /\ e !! "coords" = Some (coords site)
    /\ dom e = {[ "feature"; "coords" ]}.
Proof.
  intros Hl. destruct (load env p) as [s|] eqn:Hload.
  - destruct (forallb indexable s) eqn:Hix.
    + assert (Hacc : (accumulate env s (select_metals 0 s) ∅).1 !! l = Some e).
      { rewrite (run_selected env p o w s Hload Hix) in Hl. simpl in Hl.
        rewrite dump_features_eq in Hl.
        destruct (accumulate env s (select_metals 0 s) ∅) as [d ok].
        simpl in *. destruct ok; [|done].
        destruct (open_wb env _); [|done].
        by destruct (pickle_dump env d). }
      destruct (accumulate_entries s _ _ _ _ two_keys_empty Hacc)
        as [Hempty|(i & site & X & Hin & Hlab & HX & ->)].
      { by rewrite lookup_empty in Hempty. }
      destruct (select_metals_elem s 0 i site Hin) as (j & -> & Hj & Hm).
      exists s, (0 + j), site, X. unfold entry.
      split; [done|]. split; [done|]. split; [done|]. split; [done|].
      split; [done|].
      split; [by rewrite lookup_insert_ne, lookup_insert_eq|].
      split; [by rewrite lookup_insert_eq|].
      rewrite !dom_insert_L, dom_empty_L. set_solver.
    + destruct (run_selection_raises_keeps env (init p o) w s Hload Hix)
        as (e0 & self' & E & _ & _ & Hf & _).
      rewrite E in Hl. unfold final_self in Hl. simpl in Hl.
      rewrite Hf in Hl. simpl in Hl. by rewrite lookup_empty in Hl.
  - rewrite (run_not_loaded env (init p o) w Hload) in Hl.
    unfold final_self in Hl. simpl in Hl. by rewrite lookup_empty in Hl.
Qed.

End Outcomes.

(** ** Where the output file can land *)
Section NamingSafety.
Import PosixPath PosixPathFacts.

Lemma split_parts_no_sep (c : ascii) (s : string) :
  Forall (fun part => occurs c part = false) (split c s).
Proof.
  induction s as [|a r IH]; simpl.
  - by constructor.
  - destruct (Ascii.eqb a c) eqn:Hac; [by constructor|].
    destruct (split c r) as [|h t].
    + constructor; [|done]. simpl. by rewrite Hac.
    + apply Forall_cons in IH as [Hh Ht].
      constructor; [|done]. simpl. by rewrite Hac, Hh.
Qed.

Lemma Forall_list_filter {A} (P : A -> Prop) (f : A -> bool) (l : list A) :
  Forall P l -> Forall P (List.filter f l).
Proof.
  induction 1 as [|x l Hx Hl IH]; simpl; [done|].
  destruct (f x); [by constructor|done].
Qed.

Lemma last_Forall {A} (P : A -> Prop) (l : list A) (d : A) :
  Forall P l -> P d -> P (List.last l d).
Proof.
  induction 1 as [|x l Hx Hl IH]; intros Hd; simpl; [done|].
  destruct l; [done|]. by apply IH.
Qed.

Lemma occurs_substring (c : ascii) (nm : string) : forall i,
  occurs c nm = false -> occurs c (substring 0 i nm) = false.
Proof.
  induction nm as [|a r IH]; intros i H; simpl in *.
  - by destruct i.
  - destruct i as [|i]; [done|]. simpl.
    apply orb_false_iff in H as [Ha Hr]. by rewrite Ha, (IH i Hr).
Qed.

(** No path has a separator in its stem. *)
Lemma stem_no_sep (s : string) : occurs sep (stem s) = false.
Proof.
  assert (Hname : occurs sep (name s) = false).
  { unfold name, components.
    apply (last_Forall (fun part => occurs sep part = false)); [|done].
    apply Forall_list_filter, split_parts_no_sep. }
  unfold stem, stem_of_name.
  destruct (rfind dot (name s)) as [i|]; [|done].
  destruct (_ && _)%bool; [|done]. by apply occurs_substring.
Qed.

Lemma pkl_name_no_sep (s : string) : occurs sep (stem s +:+ ".pkl") = false.
Proof. rewrite occurs_app, stem_no_sep. reflexivity. Qed.

Lemma no_sep_relative (s : string) :
  occurs sep s = false -> startswith_sep s = false.
Proof.
  destruct s as [|a r]; [done|]. simpl.
  by intros [Ha _]%orb_false_iff.
Qed.

Lemma str_app_inv_head (a b b' : string) : a +:+ b = a +:+ b' -> b = b'.
Proof.
  induction a as [|x a IH]; simpl; [done|]. intros [= H]. by apply IH.
Qed.

Lemma str_app_inv_tail (c : string) : forall a b : string,
  a +:+ c = b +:+ c -> a = b.
Proof.
  assert (Hlen : forall x (u : string), c <> String x (u +:+ c)).
  { intros x u H. apply (f_equal String.length) in H.
    simpl in H. rewrite length_app in H. lia. }
  induction a as [|x a IH]; intros [|y b]; simpl; [done| | |].
  - intros H. by destruct (Hlen y b).
  - intros H. symmetry in H. by destruct (Hlen x a).
  - intros [= -> H]. by rewrite (IH b H).
Qed.

(** Joining one directory with two relative names gives the same path
    only for the same name. *)
Lemma join_relative_inj (a b b' : string) :
  startswith_sep b = false -> startswith_sep b' = false ->
  join a b = join a b' -> b = b'.
Proof.
  intros Hb Hb'. unfold join. rewrite Hb, Hb'.
  destruct (_ || _)%bool; intros H.
  - by apply str_app_inv_head in H.
  - apply str_app_inv_head in H. simpl in H. by injection H.
Qed.

(** X10. Whatever the input path (absolute, with parent references, with
    any extension), the output file lands directly in the output
    directory: its name [stem + '.pkl'] contains no separator and never
    replaces the directory in [os.path.join]; the path is the directory,
    one separator unless the directory is empty or already ends with
    one, and that name. *)
Theorem outname_directly_in_outpath (p out : string) :
  occurs sep (stem p +:+ ".pkl") = false
  /\ outname (init p out)
     = if (String.eqb out "" || endswith_sep out)%bool
       then out +:+ (stem p +:+ ".pkl")
       else out +:+ "/" +:+ (stem p +:+ ".pkl").
Proof.
  split; [apply pkl_name_no_sep|].
  simpl. unfold join.
  by rewrite (no_sep_relative _ (pkl_name_no_sep p)).
Qed.

(** X11. The output file of an instance is never its log file
    ([outpath/log]), whatever the input path and the output directory. *)
Theorem outname_is_never_the_log (p out : string) :
  String.eqb (outname (init p out)) (logname out) = false.
Proof.
  apply String.eqb_neq. unfold logname. simpl. intros H.
  apply join_relative_inj in H;
    [|by apply no_sep_relative, pkl_name_no_sep|done].
  apply (f_equal String.length) in H. rewrite length_app in H.
  simpl in H. lia.
Qed.

(** X12. Two inputs sent to the same output directory get the same
    output path exactly when their stems are equal: inputs with
    different stems never overwrite each other's output. *)
Theorem outname_collision_iff_same_stem (p1 p2 out : string) :
  outname (init p1 out) = outname (init p2 out) <-> stem p1 = stem p2.
Proof.
  simpl. split.
  - intros H.
    apply join_relative_inj in H;
      [|by apply no_sep_relative, pkl_name_no_sep..].
    by apply str_app_inv_tail in H.
  - by intros ->.
Qed.

End NamingSafety.

(** ** Running twice on one instance *)
Section Rerun.

Variable env : Env.

(** A label that occurs among the pairs has a last occurrence. *)
Lemma last_occurrence (l : string) (pairs : list (nat * Site)) :
  Exists (fun q => species_string q.2 = l) pairs ->
  exists pre i site post,
    pairs = pre ++ (i, site) :: post
    /\ species_string site = l
    /\ Forall (fun q => species_string q.2 <> l) post.
Proof.
  induction pairs as [|[i site] r IH]; intros Hex.
  - by apply Exists_nil in Hex.
  - destruct (decide (Exists (fun q : nat * Site => species_string q.2 = l) r))
      as [Hr|Hr].
    + destruct (IH Hr) as (pre & j & sj & post & -> & Hlab & Hpost).
      by exists ((i, site) :: pre), j, sj, post.
    + apply Exists_cons in Hex as [Hhere|Hr']; [|done].
      exists [], i, site, r. split; [done|]. split; [done|].
      by apply Forall_Exists_neg.
Qed.

(** Going over the same sites again changes nothing in the mapping. *)
Lemma accumulate_idem (s : Structure) (pairs : list (nat * Site))
    (d : FeatureRecord) :
  two_keys d ->
  (accumulate env s pairs d).2 = true ->
  (accumulate env s pairs (accumulate env s pairs d).1).1
  = (accumulate env s pairs d).1.
Proof.
  intros Hd Hok.
  pose proof (accumulate_two_keys env s pairs d Hd) as Hd1.
  assert (Hok1 : (accumulate env s pairs (accumulate env s pairs d).1).2 = true).
  { apply accumulate_complete. by apply (accumulate_complete env s pairs d). }
  apply map_eq. intros l.
  destruct (decide (Exists (fun q : nat * Site => species_string q.2 = l) pairs))
    as [Hex|Hno].
  - destruct (last_occurrence l pairs Hex)
      as (pre & i & site & post & -> & <- & Hpost).
    destruct (accumulate_last env s pre post i site d Hd Hok Hpost)
      as (X & HX & Hlook).
    destruct (accumulate_last env s pre post i site _ Hd1 Hok1 Hpost)
      as (X' & HX' & Hlook').
    rewrite Hlook, Hlook'. congruence.
  - apply Forall_Exists_neg in Hno. by rewrite accumulate_other.
Qed.

(** The second of two runs, from the instance and the world that a
    silent first run leaves. *)
Lemma rerun_from (p o : string) (w : World) (s : Structure) :
  load env p = Some s -> forallb indexable s = true ->
  Forall (fun q => is_Some (featurize env s q.1)) (select_metals 0 s) ->
  open_wb env (outname (init p o)) = true ->
  pickle_dump env (accumulate env s (select_metals 0 s) ∅).1 = true ->
  run_featurization env
    (set_features (accumulate env s (select_metals 0 s) ∅).1 (selected s p o))
    (mkWorld (<[outname (init p o) :=
                  Pickled (accumulate env s (select_metals 0 s) ∅).1]> (fs w))
       (log w))
  = (Return tt,
     set_features (accumulate env s (select_metals 0 s) ∅).1
       (add_metals (select_metals 0 s)
          (set_structure s
             (set_features (accumulate env s (select_metals 0 s) ∅).1
                (selected s p o)))),
     mkWorld (<[outname (init p o) :=
                  Pickled (accumulate env s (select_metals 0 s) ∅).1]> (fs w))
       (log w)).
Proof.
  intros Hl Hix Hall Hopen Hpickle.
  assert (Hok : (accumulate env s (select_metals 0 s) ∅).2 = true).
  { by apply accumulate_complete. }
  set (d1 := (accumulate env s (select_metals 0 s) ∅).1) in *.
  set (self1 := set_features d1 (selected s p o)).
  set (w1 := mkWorld (<[outname (init p o) := Pickled d1]> (fs w)) (log w)).
  assert (Hl1 : load env (path self1) = Some s) by exact Hl.
  rewrite (run_loaded_unfold env self1 w1 s Hl1 Hix).
  set (self2 := add_metals (select_metals 0 s) (set_structure s self1)).
  assert (Hsites : metal_sites self2
                   = map snd (select_metals 0 s ++ select_metals 0 s)).
  { by rewrite map_app. }
  assert (Hidx : drop 0 (metal_indices self2)
                 = map fst (select_metals 0 s ++ select_metals 0 s)).
  { by rewrite map_app. }
  rewrite Hsites.
  rewrite (featurize_loop env s _ 0 self2 w1 eq_refl Hidx).
  assert (Hacc : accumulate env s (select_metals 0 s ++ select_metals 0 s)
                   (features self2) = (d1, true)).
  { change (features self2) with d1. rewrite accumulate_app.
    assert (Hidem : (accumulate env s (select_metals 0 s) d1).1 = d1).
    { unfold d1. exact (accumulate_idem s _ ∅ two_keys_empty Hok). }
    assert (Hok' : (accumulate env s (select_metals 0 s) d1).2 = true).
    { by apply accumulate_complete. }
    rewrite Hok', Hidem.
    destruct (accumulate env s (select_metals 0 s) d1) as [d2 ok2].
    simpl in *. by subst. }
  rewrite Hacc. cbn [fst snd].
  rewrite dump_features_eq.
  change (outname (set_features d1 self2)) with (outname (init p o)).
  change (features (set_features d1 self2)) with d1.
  rewrite Hopen, Hpickle. unfold w1. cbn [fs log].
  by rewrite insert_insert_eq.
Qed.

(** X13. The instance is not reset between runs: after a silent run on
    a fresh instance, a second [run_featurization] in the same
    environment appends every metal site and position a second time to
    [metal_sites] and [metal_indices], goes over all of them, and is
    silent again; the mapping and the world (the output file and the
    log) end as the first run left them. *)
Theorem second_run_repeats_first (p o : string) (w : World) (s : Structure) :
  load env p = Some s ->
  successful w (run_featurization env (init p o) w) ->
  let r1 := run_featurization env (init p o) w in
  let r2 := run_featurization env (final_self r1) (final_world r1) in
  successful (final_world r1) r2
  /\ final_world r2 = final_world r1
  /\ features (final_self r2) = features (final_self r1)
  /\ metal_sites (final_self r1) = map snd (select_metals 0 s)
  /\ metal_sites (final_self r2)
     = map snd (select_metals 0 s) ++ map snd (select_metals 0 s)
  /\ metal_indices (final_self r2)
     = map fst (select_metals 0 s) ++ map fst (select_metals 0 s).
Proof.
  intros Hl Hsucc r1 r2.
  pose proof (silent_run_stages env p o w Hsucc)
    as (s' & Hl' & Hix & Hall & Hopen & Hpickle).
  assert (s' = s) as -> by congruence.
  destruct (successful_run env p o w s Hl Hsucc) as (_ & Hok & E1).
  subst r2 r1. rewrite E1. unfold final_self, final_world. cbn [fst snd].
  rewrite (rerun_from p o w s Hl Hix Hall Hopen Hpickle).
  unfold successful, outcome, final_world. cbn [fst snd].
  by repeat split.
Qed.

End Rerun.

(** ** Concrete runs of the further properties *)

Lemma metal_lists_stay_aligned_witness :
  let env := Samples.env_of Samples.mof_dummy [] true in
  let self := set_structure Samples.mof_dummy (init "data/mof.cif" "out") in
  outcome (get_metal_sites self Samples.world0) = Raise AttributeError
  /\ aligned (final_self (get_metal_sites self Samples.world0))
  /\ aligned (final_self (run_featurization env self Samples.world0)).
Proof.
  intros env self. split; [reflexivity|].
  exact (metal_lists_stay_aligned env self Samples.world0 eq_refl).
Defined.

Lemma silent_run_file_matches_memory_witness :
  let env := Samples.env_of Samples.mof [] true in
  let r := run_featurization env (init "data/mof.cif" "out") Samples.world0 in
  fs (final_world r) !! "out/mof.pkl" = Some (Pickled (features (final_self r))).
Proof.
  intros env r.
  assert (Hsucc : successful Samples.world0 r).
  { split; vm_compute; reflexivity. }
  exact (silent_run_file_matches_memory env (init "data/mof.cif" "out")
           Samples.world0 Hsucc).
Defined.

(** [pickle.dump] raises after [open] succeeded: the pickle written by
    an earlier run is gone and no complete pickle replaces it. *)
Lemma serialization_failure_outcome_witness :
  let env := mkEnv Structure
               (fun p => if String.eqb p "data/mof.cif"
                         then Some Samples.mof_distinct else None)
               (fun a => Some a) (fun _ idx => Some [inject_Z (Z.of_nat idx)])
               (fun _ => true) (fun _ => false) in
  let w := mkWorld {[ "out/mof.pkl" := Pickled ∅ ]} [] in
  let r := run_featurization env (init "data/mof.cif" "out") w in
  outcome r = Return tt
  /\ log (final_world r)
     = [mkLogRecord "ERROR" "could not featurize data/mof.cif"]
  /\ fs (final_world r) = {[ "out/mof.pkl" := Truncated ]}.
Proof.
  intros env w r.
  assert (Hall : Forall (fun q : nat * Site =>
                           is_Some (featurize env Samples.mof_distinct q.1))
                   (select_metals 0 Samples.mof_distinct)).
  { repeat constructor; by eexists. }
  destruct (serialization_failure_outcome env "data/mof.cif" "out" w
              Samples.mof_distinct eq_refl eq_refl Hall eq_refl)
    as (Hret & _ & Hlog & Hfs).
  split; [exact Hret|]. split; [exact Hlog|exact Hfs].
Defined.

Lemma entries_always_complete_witness :
  let env := Samples.env_of Samples.mof [2] true in
  exists s i site X,
    load env "data/mof.cif" = Some s
    /\ s !! i = Some site
    /\ site_is_metal site = true
    /\ species_string site = "Fe"
    /\ featurize env s i = Some X
    /\ entry [1%Q] Samples.site_Fe1 !! "feature" = Some X
    /\ entry [1%Q] Samples.site_Fe1 !! "coords" = Some (coords site)
    /\ dom (entry [1%Q] Samples.site_Fe1) = {[ "feature"; "coords" ]}.
Proof.
  intros env.
  assert (Hl : features (final_self (run_featurization env
                                     (init "data/mof.cif" "out") Samples.world0))
               !! "Fe" = Some (entry [1%Q] Samples.site_Fe1)).
  { vm_compute. reflexivity. }
  exact (entries_always_complete env "data/mof.cif" "out" Samples.world0
           "Fe" (entry [1%Q] Samples.site_Fe1) Hl).
Defined.

Lemma second_run_repeats_first_witness :
  let env := Samples.env_of Samples.mof [] true in
  let r1 := run_featurization env (init "data/mof.cif" "out") Samples.world0 in
  let r2 := run_featurization env (final_self r1) (final_world r1) in
  final_world r2 = final_world r1
  /\ metal_indices (final_self r2) = [0; 2; 3; 0; 2; 3].
Proof.
  intros env r1 r2.
  assert (Hsucc : successful Samples.world0 r1).
  { split; vm_compute; reflexivity. }
  destruct (second_run_repeats_first env "data/mof.cif" "out" Samples.world0
              Samples.mof eq_refl Hsucc) as (_ & Hw & _ & _ & _ & Hidx).
  split; [exact Hw|exact Hidx].
Defined.
